(** * qamel/generator/gen-cgo.go: the flag resolver of [createCgoFlags]

    A shallow embedding of the text transformation that [createCgoFlags]
    performs on the lines of the makefile written by qmake:

    - the scanner loop that fills [mapCompiler] (ParseSymbols),
    - the [range mapCompiler] loop that substitutes [$(X)] placeholders,
      patches out the big-obj flag and trims (ResolveReferences),
    - the seven [fmt.Sprint*] calls that build [cgoFlags] (RenderFlags),

    and of the text that [CreateCgoFile] writes around it ([fileContent]).
    The two functions as a whole are modelled by the calls they make into
    the operating system and by what they return.

    Go strings are byte sequences: they are modelled as [string] (a list
    of 8-bit [ascii]).  [mapCompiler] is a [gmap string string].  The two
    regular expressions are written as syntax trees and run by a small
    backtracking matcher with Go's leftmost-first, greedy priorities. *)

From Stdlib Require Import Ascii String.
From stdpp Require Import gmap strings list fin_maps.

(** ** Strings as byte sequences *)

Module Str.

(** [all p s]: every byte of [s] satisfies [p]. *)
Fixpoint all (p : ascii → bool) (s : string) : bool :=
  match s with
  | EmptyString => true
  | String a s' => p a && all p s'
  end.

(** [has p s]: some byte of [s] satisfies [p]. *)
Fixpoint has (p : ascii → bool) (s : string) : bool :=
  match s with
  | EmptyString => false
  | String a s' => p a || has p s'
  end.

(** [starts p s]: [s] is not empty and its first byte satisfies [p]. *)
Definition starts (p : ascii → bool) (s : string) : bool :=
  match s with
  | EmptyString => false
  | String a _ => p a
  end.

(** [ends p s]: [s] is not empty and its last byte satisfies [p]. *)
Fixpoint ends (p : ascii → bool) (s : string) : bool :=
  match s with
  | EmptyString => false
  | String a EmptyString => p a
  | String _ s' => ends p s'
  end.

Definition eqc (c : ascii) (a : ascii) : bool := Ascii.eqb a c.

(** [lines s]: the pieces of [s] between newline bytes. *)
Fixpoint lines (s : string) : list string :=
  match s with
  | EmptyString => [EmptyString]
  | String a s' =>
      if Ascii.eqb a "010" then EmptyString :: lines s'
      else match lines s' with
           | l :: ls => String a l :: ls
           | [] => [String a EmptyString]
           end
  end.

End Str.

(** ** Regular expressions (package regexp)

    The fragment of RE2 syntax that [rxMakefile] and [rxCompilerVar] use:
    literals, the classes [\s], [\S] and [.], greedy [*] and [+] over a
    class, capture groups, concatenation, [^] and [$] (no flags, so they
    only match at the two ends of the text).

    Go decodes the text as UTF-8; every class below either contains or
    excludes all bytes above 127, and every delimiter is an ASCII byte, so
    matching byte by byte finds the same matches and the same group
    boundaries as matching rune by rune. *)

Module Regexp.

Inductive regex : Type :=
| Lit (c : ascii)
| Class (p : ascii → bool)
| Star (p : ascii → bool)
| Plus (p : ascii → bool)
| Cat (r1 r2 : regex)
| Group (r : regex)
| Bol
| Eol.

(** [\s] is [[\t\n\f\r ]] in RE2 (no vertical tab). *)
Definition space (a : ascii) : bool :=
  match nat_of_ascii a with
  | 9 | 10 | 12 | 13 | 32 => true
  | _ => false
  end.

(** [\S] *)
Definition nonspace (a : ascii) : bool := negb (space a).

(** [.] matches every character but the newline. *)
Definition dot (a : ascii) : bool := negb (Ascii.eqb a "010").

(** The ways a greedy [p*] can match at the front of [s], as pairs
    (matched, rest), the longest first. *)
Fixpoint star (p : ascii → bool) (s : string) : list (string * string) :=
  match s with
  | EmptyString => [(EmptyString, EmptyString)]
  | String a s' =>
      if p a
      then (prod_map (String a) id <$> star p s') ++ [(EmptyString, s)]
      else [(EmptyString, s)]
  end.

Definition plus (p : ascii → bool) (s : string) : list (string * string) :=
  match s with
  | EmptyString => []
  | String a s' =>
      if p a then prod_map (String a) id <$> star p s' else []
  end.

(** A way of matching: the captured groups (in the order of their
    opening parentheses), the matched text, and the text that is left. *)
Abbreviation result := (list string * string * string)%type.

(** [run r i s]: every way [r] matches at the front of [s], which starts
    at offset [i] of the whole text, in the order in which a backtracking
    search tries them. The first element is the match Go reports. *)
Fixpoint run (r : regex) (i : nat) (s : string) : list result :=
  match r with
  | Lit c =>
      match s with
      | String a s' =>
          if Ascii.eqb a c then [([], String a EmptyString, s')] else []
      | EmptyString => []
      end
  | Class p =>
      match s with
      | String a s' => if p a then [([], String a EmptyString, s')] else []
      | EmptyString => []
      end
  | Star p => (λ '(m, s'), ([], m, s')) <$> star p s
  | Plus p => (λ '(m, s'), ([], m, s')) <$> plus p s
  | Cat r1 r2 =>
      '(c1, m1, s1) ← run r1 i s;
      '(c2, m2, s2) ← run r2 (i + String.length m1) s1;
      [(c1 ++ c2, m1 +:+ m2, s2)]
  | Group r => '(c, m, s') ← run r i s; [(m :: c, m, s')]
  | Bol => match i with O => [([], EmptyString, s)] | S _ => [] end
  | Eol =>
      match s with
      | EmptyString => [([], EmptyString, EmptyString)]
      | String _ _ => []
      end
  end.

(** The match at offset [i], if there is one. *)
Definition match_at (r : regex) (i : nat) (s : string) : option result :=
  head (run r i s).

(** The leftmost match at or after offset [i]. *)
Fixpoint find_from (r : regex) (i : nat) (s : string) : option result :=
  match match_at r i s with
  | Some res => Some res
  | None =>
      match s with
      | EmptyString => None
      | String _ s' => find_from r (S i) s'
      end
  end.

(** [re.FindStringSubmatch(text)]: the leftmost match followed by its
    groups, or nil. *)
Definition FindStringSubmatch (r : regex) (text : string) : list string :=
  match find_from r 0 text with
  | Some (c, m, _) => m :: c
  | None => []
  end.

(** [re.FindAllString(text, -1)]: the successive non-overlapping matches,
    left to right. [skip] counts the bytes of the previous match that are
    still to be passed over. Both patterns of this file only match
    non-empty text, so Go's rules for empty matches do not come into
    play. *)
Fixpoint find_all (r : regex) (skip i : nat) (s : string) : list string :=
  match s with
  | EmptyString => []
  | String _ s' =>
      match skip with
      | S n => find_all r n (S i) s'
      | O =>
          match match_at r i s with
          | Some (_, m, _) => m :: find_all r (String.length m - 1) (S i) s'
          | None => find_all r 0 (S i) s'
          end
      end
  end.

Definition FindAllString (r : regex) (text : string) : list string :=
  find_all r 0 0 text.

(** [re.ReplaceAllString(src, "$1")]: every match is replaced by its
    first group, the text between matches is copied. *)
Fixpoint replace_all_1 (r : regex) (skip i : nat) (s : string) : string :=
  match s with
  | EmptyString => EmptyString
  | String a s' =>
      match skip with
      | S n => replace_all_1 r n (S i) s'
      | O =>
          match match_at r i s with
          | Some (c, m, _) =>
              nth 0 c EmptyString
                +:+ replace_all_1 r (String.length m - 1) (S i) s'
          | None => String a (replace_all_1 r 0 (S i) s')
          end
      end
  end.

Definition ReplaceAllString_1 (r : regex) (src : string) : string :=
  replace_all_1 r 0 0 src.

End Regexp.

(** ** UTF-8 (package unicode/utf8) and white space (package unicode) *)

Module Utf8.

Definition byte (a : ascii) : N := N_of_ascii a.

Definition RuneError : N := 65533.

Definition between (lo hi : N) (a : ascii) : bool :=
  ((lo <=? byte a) && (byte a <=? hi))%N.

Definition low (bits : N) (a : ascii) : N := N.land (byte a) bits.

(** [utf8.DecodeRuneInString(s)]: the first rune of [s] and its width in
    bytes; an invalid or truncated encoding is [RuneError] of width 1, the
    empty string [RuneError] of width 0. The second byte has a narrower
    range after the lead bytes E0, ED, F0 and F4 (no overlong forms, no
    surrogates, nothing above U+10FFFF). *)
Definition DecodeRuneInString (s : string) : N * nat :=
  match s with
  | EmptyString => (RuneError, 0)
  | String a0 s1 =>
      let b0 := byte a0 in
      if (b0 <? 128)%N then (b0, 1)
      else if ((b0 <? 194) || (244 <? b0))%N then (RuneError, 1)
      else
        let lo := (if b0 =? 224 then 160 else if b0 =? 240 then 144 else 128)%N in
        let hi := (if b0 =? 237 then 159 else if b0 =? 244 then 143 else 191)%N in
        match s1 with
        | EmptyString => (RuneError, 1)
        | String a1 s2 =>
            if negb (between lo hi a1) then (RuneError, 1)
            else if (b0 <? 224)%N
            then (N.lor (N.shiftl (low 31 a0) 6) (low 63 a1), 2)
            else
              match s2 with
              | EmptyString => (RuneError, 1)
              | String a2 s3 =>
                  if negb (between 128 191 a2) then (RuneError, 1)
                  else if (b0 <? 240)%N
                  then (N.lor (N.shiftl (low 15 a0) 12)
                          (N.lor (N.shiftl (low 63 a1) 6) (low 63 a2)), 3)
                  else
                    match s3 with
                    | EmptyString => (RuneError, 1)
                    | String a3 _ =>
                        if negb (between 128 191 a3) then (RuneError, 1)
                        else (N.lor (N.shiftl (low 7 a0) 18)
                                (N.lor (N.shiftl (low 63 a1) 12)
                                   (N.lor (N.shiftl (low 63 a2) 6)
                                      (low 63 a3))), 4)
                    end
              end
        end
  end.

(** [utf8.RuneStart(b)]: [b] is not a continuation byte. *)
Definition RuneStart (a : ascii) : bool := negb (N.land (byte a) 192 =? 128)%N.

Fixpoint drop (n : nat) (s : string) : string :=
  match n, s with
  | S n', String _ s' => drop n' s'
  | _, _ => s
  end.

Fixpoint take (n : nat) (s : string) : string :=
  match n, s with
  | S n', String a s' => String a (take n' s')
  | _, _ => EmptyString
  end.

(** Where [utf8.DecodeLastRuneInString] starts decoding: the nearest rune
    start among the three bytes before the last one, else one byte before
    them (offset 0 in a short string). *)
Definition last_rune_start (s : string) : nat :=
  let e := String.length s in
  let start_at k :=
    (k <=? e) &&
    match String.get (e - k) s with Some a => RuneStart a | None => false end in
  if start_at 2 then e - 2
  else if start_at 3 then e - 3
  else if start_at 4 then e - 4
  else e - 5.

(** [utf8.DecodeLastRuneInString(s)] *)
Definition DecodeLastRuneInString (s : string) : N * nat :=
  let e := String.length s in
  match String.get (e - 1) s with
  | None => (RuneError, 0)
  | Some a =>
      if (byte a <? 128)%N then (byte a, 1)
      else
        let start := last_rune_start s in
        let '(r, size) := DecodeRuneInString (drop start s) in
        if start + size =? e then (r, size) else (RuneError, 1)
  end.

(** [unicode.IsSpace(r)]: the White_Space property. *)
Definition IsSpace (r : N) : bool :=
  (((9 <=? r) && (r <=? 13)) || (r =? 32) || (r =? 133) || (r =? 160)
   || (r =? 5760) || ((8192 <=? r) && (r <=? 8202))
   || (r =? 8232) || (r =? 8233) || (r =? 8239) || (r =? 8287)
   || (r =? 12288))%N.

End Utf8.

(** ** Package strings *)

Module Strings.

Import Utf8.

(** The loop of [strings.Replace(s, old, new, -1)] for a non-empty [old]:
    every non-overlapping occurrence of [old], searched left to right, is
    replaced by [new]. [skip] counts the bytes of the occurrence just
    replaced that are still to be passed over. *)
Fixpoint replace (old new : string) (skip : nat) (s : string) : string :=
  match s with
  | EmptyString => EmptyString
  | String a s' =>
      match skip with
      | S n => replace old new n s'
      | O =>
          if String.prefix old s
          then new +:+ replace old new (String.length old - 1) s'
          else String a (replace old new 0 s')
      end
  end.

(** The same loop for an empty [old], which matches after every rune:
    [k] counts the bytes of the current rune that follow this one. *)
Fixpoint after_runes (new : string) (k : nat) (s : string) : string :=
  match s with
  | EmptyString => EmptyString
  | String a s' =>
      let k' :=
        match k with
        | O => (DecodeRuneInString s).2 - 1
        | S n => n
        end in
      match k' with
      | O => String a (new +:+ after_runes new 0 s')
      | S _ => String a (after_runes new k' s')
      end
  end.

(** [strings.Replace(s, old, new, -1)] *)
Definition Replace (s old new : string) : string :=
  if decide (old = new) then s
  else
    match old with
    | EmptyString => new +:+ after_runes new 0 s
    | String _ _ => replace old new 0 s
    end.

(** [strings.TrimLeftFunc(s, unicode.IsSpace)]: at most [String.length s]
    runes can be dropped. *)
Fixpoint trim_left (fuel : nat) (s : string) : string :=
  match fuel with
  | O => s
  | S fuel' =>
      let '(r, size) := DecodeRuneInString s in
      if (0 <? size) && IsSpace r then trim_left fuel' (drop size s) else s
  end.

(** [strings.TrimRightFunc(s, unicode.IsSpace)] *)
Fixpoint trim_right (fuel : nat) (s : string) : string :=
  match fuel with
  | O => s
  | S fuel' =>
      let '(r, size) := DecodeLastRuneInString s in
      if (0 <? size) && IsSpace r
      then trim_right fuel' (take (String.length s - size) s)
      else s
  end.

(** [strings.TrimSpace(s)]: white-space runes are dropped from the left,
    then from the right of what is left. (Go's loops over ASCII bytes are
    a fast path for the same result.) *)
Definition TrimSpace (s : string) : string :=
  let l := trim_left (String.length s) s in
  trim_right (String.length l) l.

End Strings.

Import Regexp Strings.

(** [rxMakefile = regexp.MustCompile(`^(\S+)\s*=\s*(.+)$`)] *)
Definition rxMakefile : regex :=
  Cat Bol
    (Cat (Group (Plus nonspace))
       (Cat (Star space)
          (Cat (Lit "=")
             (Cat (Star space)
                (Cat (Group (Plus dot)) Eol))))).

(** [rxCompilerVar = regexp.MustCompile(`\$\((\S+)\)`)] *)
Definition rxCompilerVar : regex :=
  Cat (Lit "$") (Cat (Lit "(") (Cat (Group (Plus nonspace)) (Lit ")"))).

(** ** The flag resolver of [createCgoFlags] *)

(** The body of the scanner loop (lines 140-146): [text] is one line of
    the makefile. *)
Definition scanLine (mapCompiler : gmap string string) (text : string)
  : gmap string string :=
  let parts := FindStringSubmatch rxMakefile text in
  if decide (length parts ≠ 3) then mapCompiler
  else <[nth 1 parts EmptyString := nth 2 parts EmptyString]> mapCompiler.

(** ParseSymbols: the scanner loop over the lines of the makefile. *)
Definition ParseSymbols (lines : list string) : gmap string string :=
  foldl scanLine ∅ lines.

(** [mapCompiler[key]]: a missing key reads as the empty string. *)
Definition mapIndex (mapCompiler : gmap string string) (key : string) : string :=
  default EmptyString (mapCompiler !! key).

(** The inner loop (lines 155-160) over the placeholders found in the
    value the iteration started with. *)
Definition substitute (mapCompiler : gmap string string) (flagValue : string)
  : string :=
  foldl
    (λ flagValue variable,
       let variableKey := ReplaceAllString_1 rxCompilerVar variable in
       let variableValue := mapIndex mapCompiler variableKey in
       Replace flagValue variable variableValue)
    flagValue
    (FindAllString rxCompilerVar flagValue).

Definition bigObj : string := " -Wa,-mbig-obj ".

(** Lines 164-165. *)
Definition patch (flagValue : string) : string :=
  TrimSpace (Replace flagValue bigObj " ").

(** The value stored for a key whose iteration starts with [flagValue]
    while the map is [mapCompiler]. *)
Definition resolveValue (mapCompiler : gmap string string) (flagValue : string)
  : string :=
  patch (substitute mapCompiler flagValue).

(** One iteration of [for flagKey, flagValue := range mapCompiler]
    (lines 154-166). *)
Definition resolveKey (mapCompiler : gmap string string) (flagKey : string)
  : gmap string string :=
  match mapCompiler !! flagKey with
  | Some flagValue =>
      <[flagKey := resolveValue mapCompiler flagValue]> mapCompiler
  | None => mapCompiler
  end.

(** Go does not specify the order in which [range] visits the keys of a
    map (the runtime picks a random starting point); it visits every key
    once, and the loop body only assigns to keys that exist. A run of the
    loop is therefore determined by the map and by [order], the keys of
    the map in the order of the visit. *)
Definition key_order (mapCompiler : gmap string string) (order : list string)
  : Prop :=
  order ≡ₚ (map_to_list mapCompiler).*1.

(** ResolveReferences: the [range] loop, visiting the keys in [order]. *)
Definition ResolveReferences (order : list string)
    (mapCompiler : gmap string string) : gmap string string :=
  foldl resolveKey mapCompiler order.

Definition nl : string := String "010" EmptyString.

(** The seven pieces appended to [cgoFlags] (lines 169-175): five
    [Sprintf] with a trailing newline, one [Sprintln], one [Sprint]. *)
Definition directives (mapCompiler : gmap string string) : list string :=
  [ "#cgo CFLAGS: " +:+ mapIndex mapCompiler "CFLAGS" +:+ nl;
    "#cgo CXXFLAGS: " +:+ mapIndex mapCompiler "CXXFLAGS" +:+ nl;
    "#cgo CXXFLAGS: " +:+ mapIndex mapCompiler "INCPATH" +:+ nl;
    "#cgo LDFLAGS: " +:+ mapIndex mapCompiler "LFLAGS" +:+ nl;
    "#cgo LDFLAGS: " +:+ mapIndex mapCompiler "LIBS" +:+ nl;
    "#cgo CFLAGS: -Wno-unused-parameter -Wno-unused-variable -Wno-return-type"
      +:+ nl;
    "#cgo CXXFLAGS: -Wno-unused-parameter -Wno-unused-variable -Wno-return-type"
  ].

(** RenderFlags: the value of [cgoFlags] that [createCgoFlags] returns. *)
Definition RenderFlags (mapCompiler : gmap string string) : string :=
  foldl String.append EmptyString (directives mapCompiler).

(** The text transformation of [createCgoFlags], from the lines of the
    makefile to [cgoFlags]. *)
Definition cgoFlagsOf (order : list string) (lines : list string) : string :=
  RenderFlags (ResolveReferences order (ParseSymbols lines)).

(** ** The file written by [CreateCgoFile] *)

(** [fmt.Sprintln(operands...)] on strings: the operands separated by
    spaces, then a newline. *)
Fixpoint spaced (operands : list string) : string :=
  match operands with
  | [] => EmptyString
  | [operand] => operand
  | operand :: rest => operand +:+ " " +:+ spaced rest
  end.

Definition Sprintln (operands : list string) : string := spaced operands +:+ nl.

(** The raw string literal of line 56; 34 is the double quote. *)
Definition importC : string :=
  "import " +:+ String "034" ("C" +:+ String "034" EmptyString).

(** [fileContent] (lines 51-56). *)
Definition fileContent (pkgName cgoFlags : string) : string :=
  foldl String.append EmptyString
    [ Sprintln ["package " +:+ pkgName];
      Sprintln [];
      Sprintln ["/*"];
      Sprintln [cgoFlags];
      Sprintln ["*/"];
      Sprintln [importC] ].

(** ** The files of [createCgoFlags]

    [Join] stands for [fp.Join], which depends on the platform. *)

Definition proFilePath (Join : string → string → string) (dstDir : string)
  : string := Join dstDir "qamel.pro".

Definition makeFilePath (Join : string → string → string) (dstDir : string)
  : string := Join dstDir "qamel.makefile".

(** The makefile that is parsed (lines 126-129). *)
Definition qmakeResultPath (OS makeFilePath : string) : string :=
  if decide (OS = "windows") then makeFilePath +:+ ".Release" else makeFilePath.

(** The arguments of the five [os.Remove] calls (lines 178-182). *)
Definition removedFiles (Join : string → string → string) (dstDir : string)
  : list string :=
  [ proFilePath Join dstDir;
    makeFilePath Join dstDir;
    makeFilePath Join dstDir +:+ ".Debug";
    makeFilePath Join dstDir +:+ ".Release";
    Join dstDir ".qmake.stash" ].

(** ** The two functions with their calls into the operating system

    A run is described by the calls it makes, in order, and by what it
    returns. What the operating system and the rest of the package
    answer is given by a [World], with one field for each call site whose
    answer the code looks at. *)

Module Os.

(** The message of a Go [error]. *)
Definition error : Type := string.

(** A Go result [(value, err)]. *)
Inductive outcome (A : Type) : Type :=
| Ok (value : A)
| Err (err : error).

Arguments Ok {A} value.
Arguments Err {A} err.

Inductive call : Type :=
| MkdirAll (path : string)
| Create (path : string)
| WriteString (path content : string)
| Sync (path : string)
| Close (path : string)
| Command (name : string) (arg : list string) (dir : string) (env : list string)
| Open (path : string)
| Remove (path : string)
| RemoveAll (path : string).

End Os.

(** The fields of [config.Profile] that the two functions read. *)
Record Profile : Type := {
  OS : string;
  Gcc : string;
  Gxx : string;
  Qmake : string
}.

Record World : Type := {
  (** [fp.Join] and [fp.Dir] *)
  Join : string → string → string;
  Dir : string → string;
  (** [os.Getenv("PATH")] and [os.Environ()] *)
  PATH : string;
  Environ : list string;
  (** [os.MkdirAll(dstDir, os.ModePerm)], line 24 *)
  mkdirAll : option Os.error;
  (** [getPackageNameFromDir(dstDir)], line 31 *)
  packageName : Os.outcome string;
  (** [os.Create(proFilePath)], line 76 *)
  createPro : option Os.error;
  (** [proFile.WriteString(proContent)], line 82 *)
  writePro : option Os.error;
  (** [fileExists(profile.Gcc)] and [fileExists(profile.Gxx)] *)
  gccExists : bool;
  gxxExists : bool;
  (** [cmdQmake.CombinedOutput()], line 121 *)
  qmakeOutput : string * option Os.error;
  (** [os.Open(qmakeResultPath)], line 132 *)
  openMake : option Os.error;
  (** the lines that the scanner yields, and [scanner.Err()] *)
  scanned : list string * option Os.error;
  (** the order in which [range mapCompiler] visits the keys *)
  rangeOrder : list string;
  (** [dirExists(debugDir) && dirEmpty(debugDir)], and the same for
      [releaseDir] *)
  debugDirEmpty : bool;
  releaseDirEmpty : bool;
  (** [os.Create(fileName)], [dstFile.WriteString(fileContent)] and
      [dstFile.Sync()], lines 45, 58 and 63 *)
  createDst : option Os.error;
  writeDst : option Os.error;
  syncDst : option Os.error
}.

(** The calls made so far, and the result or the error returned. *)
Definition Calls (A : Type) : Type := (list Os.call * Os.outcome A)%type.

#[global] Instance Calls_ret : MRet Calls := λ A a, ([], Os.Ok a).

#[global] Instance Calls_bind : MBind Calls := λ A B f m,
  match m.2 with
  | Os.Ok a => (m.1 ++ (f a).1, (f a).2)
  | Os.Err e => (m.1, Os.Err e)
  end.

(** A call whose result is an [error]: [nil] lets the run go on. *)
Definition call_err (c : Os.call) (err : option Os.error) : Calls () :=
  ([c], match err with None => Os.Ok () | Some e => Os.Err e end).

(** A call whose result is not looked at. *)
Definition call_ (c : Os.call) : Calls () := ([c], Os.Ok ()).

(** [defer c]: the call [c] is made when the function returns,
    whatever it returns. *)
Definition defer {A : Type} (c : Os.call) (body : Calls A) : Calls A :=
  (body.1 ++ [c], body.2).

(** [fmt.Errorf(...)] around the error of [body]. *)
Definition wrap_err {A : Type} (f : Os.error → Os.error) (body : Calls A) : Calls A :=
  (body.1, match body.2 with Os.Ok a => Os.Ok a | Os.Err e => Os.Err (f e) end).

(** Lines 69-73. *)
Definition proContent (profile : Profile) : string :=
  "QT += qml quick widgets svg" +:+ nl +:+ "CONFIG += release" +:+ nl
  +:+ (if decide (OS profile = "windows") then "CONFIG += windows" +:+ nl
       else EmptyString).

(** Lines 91-99. *)
Definition qmakeSpec (profile : Profile) : string :=
  if decide (OS profile = "darwin") then "macx-clang"
  else if decide (OS profile = "linux") then "linux-g++"
  else if decide (OS profile = "windows") then "win32-g++"
  else EmptyString.

(** Lines 104-108. *)
Definition pathSeparator (profile : Profile) : string :=
  if decide (OS profile = "windows") then ";" else ":".

(** Lines 101-116. *)
Definition envPath (w : World) (profile : Profile) : string :=
  let gccDir := Dir w (Gcc profile) in
  let gxxDir := Dir w (Gxx profile) in
  let envPath := PATH w in
  let envPath :=
    if gccExists w then gccDir +:+ pathSeparator profile +:+ envPath
    else envPath in
  if gxxExists w && bool_decide (gxxDir ≠ gccDir)
  then gxxDir +:+ pathSeparator profile +:+ envPath
  else envPath.

(** [createCgoFlags] (lines 67-195). *)
Definition createCgoFlags (w : World) (profile : Profile) (dstDir : string)
  : Calls string :=
  let proFilePath := proFilePath (Join w) dstDir in
  call_err (Os.Create proFilePath) (createPro w);;
  defer (Os.Close proFilePath)
    (call_err (Os.WriteString proFilePath (proContent profile)) (writePro w);;
     call_ (Os.Sync proFilePath);;
     let makeFilePath := makeFilePath (Join w) dstDir in
     wrap_err (λ err, err +:+ nl +:+ (qmakeOutput w).1)
       (call_err
          (Os.Command (Qmake profile)
             ["-o"; makeFilePath; "-spec"; qmakeSpec profile; proFilePath]
             dstDir
             (Environ w ++ ["PATH=" +:+ envPath w profile]))
          (qmakeOutput w).2);;
     let qmakeResultPath := qmakeResultPath (OS profile) makeFilePath in
     call_err (Os.Open qmakeResultPath) (openMake w);;
     defer (Os.Close qmakeResultPath)
       (let mapCompiler := ParseSymbols (scanned w).1 in
        match (scanned w).2 with
        | Some err => ([], Os.Err err)
        | None =>
            let mapCompiler := ResolveReferences (rangeOrder w) mapCompiler in
            let cgoFlags := RenderFlags mapCompiler in
            call_ (Os.Remove proFilePath);;
            call_ (Os.Remove makeFilePath);;
            call_ (Os.Remove (makeFilePath +:+ ".Debug"));;
            call_ (Os.Remove (makeFilePath +:+ ".Release"));;
            call_ (Os.Remove (Join w dstDir ".qmake.stash"));;
            (if debugDirEmpty w
             then call_ (Os.RemoveAll (Join w dstDir "debug")) else mret ());;
            (if releaseDirEmpty w
             then call_ (Os.RemoveAll (Join w dstDir "release")) else mret ());;
            mret cgoFlags
        end)).

(** [CreateCgoFile] (lines 22-64). *)
Definition CreateCgoFile (w : World) (profile : Profile)
    (dstDir pkgName : string) : Calls () :=
  call_err (Os.MkdirAll dstDir) (mkdirAll w);;
  pkgName ← (if decide (pkgName = "") then ([], packageName w)
            else mret pkgName);
  cgoFlags ← wrap_err (λ err, "failed to create cgo flags: " +:+ err)
                (createCgoFlags w profile dstDir);
  let fileName := Join w dstDir ("qamel-cgo-" +:+ pkgName +:+ ".go") in
  call_err (Os.Create fileName) (createDst w);;
  defer (Os.Close fileName)
    (call_err (Os.WriteString fileName (fileContent pkgName cgoFlags))
       (writeDst w);;
     call_err (Os.Sync fileName) (syncDst w)).

(** ** Notions used to state the properties *)

(** The keys named by the placeholders of [flagValue]: the values that
    [variableKey] takes in the inner loop. *)
Definition references (flagValue : string) : list string :=
  ReplaceAllString_1 rxCompilerVar <$> FindAllString rxCompilerVar flagValue.

(** A value that an iteration stores back as it is: no placeholder,
    nothing to patch, nothing to trim. *)
Definition inert (flagValue : string) : Prop :=
  FindAllString rxCompilerVar flagValue = [] ∧ patch flagValue = flagValue.

(** Every key that some value refers to is missing or bound to an inert
    value. *)
Definition settled (mapCompiler : gmap string string) : Prop :=
  map_Forall
    (λ _ flagValue,
       Forall (λ key, from_option inert True (mapCompiler !! key))
         (references flagValue))
    mapCompiler.

#[global] Instance inert_dec flagValue : Decision (inert flagValue).
Proof. unfold inert. apply _. Defined.

#[global] Instance settled_dec mapCompiler : Decision (settled mapCompiler).
Proof.
  unfold settled. apply map_Forall_dec. intros _ flagValue.
  apply Forall_dec. intros key. destruct (mapCompiler !! key); apply _.
Defined.

#[global] Instance key_order_dec mapCompiler order :
  Decision (key_order mapCompiler order).
Proof. unfold key_order. apply _. Defined.

(** [precedes a b order]: [a] is visited before [b]. *)
Fixpoint precedes (a b : string) (order : list string) : bool :=
  match order with
  | [] => false
  | key :: rest =>
      if decide (key = a) then bool_decide (b ∈ rest)
      else if decide (key = b) then false
      else precedes a b rest
  end.

(** [no_occurrence old l tail]: [old] does not occur in [l +:+ tail] at
    an offset inside [l]. *)
Fixpoint no_occurrence (old l tail : string) : bool :=
  match l with
  | EmptyString => true
  | String a l' =>
      negb (String.prefix old (l +:+ tail)) && no_occurrence old l' tail
  end.

(** What a line matched by [rxMakefile] looks like. *)
Definition key_value (text K V : string) : Prop :=
  ∃ w1 w2,
    text = K +:+ w1 +:+ "=" +:+ w2 +:+ V
    ∧ K ≠ "" ∧ Str.all nonspace K = true
    ∧ Str.all space w1 = true ∧ Str.all space w2 = true
    ∧ V ≠ "" ∧ Str.all dot V = true.

(** The placeholder that names [K]. *)
Definition placeholder (K : string) : string := "$(" +:+ K +:+ ")".

(** The tests of the two loops of [strings.TrimSpace]: [s] starts, or
    ends, with a white-space rune. *)
Definition leading_space (s : string) : bool :=
  let '(r, size) := Utf8.DecodeRuneInString s in (0 <? size) && Utf8.IsSpace r.

Definition trailing_space (s : string) : bool :=
  let '(r, size) := Utf8.DecodeLastRuneInString s in
  (0 <? size) && Utf8.IsSpace r.

(** The white-space bytes: tab, newline, vertical tab, form feed,
    carriage return, space. *)
Definition asciiSpace (a : ascii) : bool :=
  match nat_of_ascii a with
  | 9 | 10 | 11 | 12 | 13 | 32 => true
  | _ => false
  end.

(** The calls that delete something. *)
Definition removal (c : Os.call) : bool :=
  match c with
  | Os.Remove _ | Os.RemoveAll _ => true
  | _ => false
  end.

(** The name that the package clause and the file name are built from
    (lines 30-35). *)
Definition packageOf (w : World) (pkgName : string) : Os.outcome string :=
  if decide (pkgName = "") then packageName w else Os.Ok pkgName.

(** ** Tables and lines of the examples *)

Definition chain : gmap string string :=
  {[ "A" := "$(B)"; "B" := "$(C)"; "C" := "x" ]}.

Definition selfRef : gmap string string := {[ "A" := "$(A)" ]}.

Definition cycle : gmap string string := {[ "A" := "$(B)"; "B" := "$(A)" ]}.


Definition endToEnd : list string :=
  [ "CFLAGS = -O2"; "CXXFLAGS = -std=c++11"; "INCPATH = -I/usr/include/qt";
    "LFLAGS = -L/usr/lib"; "LIBS = -lQt5Core $(EXTRA)" ].

Definition chainLines : list string :=
  [ "CFLAGS = $(A)"; "A = $(B)"; "B = x" ].

(** A run on Linux in which every call succeeds, and one in which qmake
    fails. *)
Definition linux : Profile :=
  {| OS := "linux"; Gcc := "/usr/bin/gcc"; Gxx := "/usr/bin/g++";
     Qmake := "/usr/bin/qmake" |}.

Definition fineWorld : World :=
  {| Join := λ dir name, dir +:+ "/" +:+ name;
     Dir := λ _, "/usr/bin";
     PATH := "/bin";
     Environ := ["HOME=/root"];
     mkdirAll := None;
     packageName := Os.Ok "main";
     createPro := None;
     writePro := None;
     gccExists := true;
     gxxExists := true;
     qmakeOutput := (EmptyString, None);
     openMake := None;
     scanned := (["CFLAGS = -O2"; "LIBS = -lQt5Core"], None);
     rangeOrder := ["LIBS"; "CFLAGS"];
     debugDirEmpty := true;
     releaseDirEmpty := false;
     createDst := None;
     writeDst := None;
     syncDst := None |}.

Definition qmakeFails : World :=
  {| Join := λ dir name, dir +:+ "/" +:+ name;
     Dir := λ _, "/usr/bin";
     PATH := "/bin";
     Environ := [];
     mkdirAll := None;
     packageName := Os.Ok "main";
     createPro := None;
     writePro := None;
     gccExists := false;
     gxxExists := false;
     qmakeOutput := ("Project ERROR: Unknown module(s) in QT: svg",
                     Some "exit status 3");
     openMake := None;
     scanned := ([], None);
     rangeOrder := [];
     debugDirEmpty := false;
     releaseDirEmpty := false;
     createDst := None;
     writeDst := None;
     syncDst := None |}.

(** * Properties *)

(** ** Strings *)

Section StrFacts.

Implicit Types (s t u : string) (p : ascii → bool).

Lemma append_nil_l s : "" +:+ s = s.
Proof. reflexivity. Qed.

Lemma append_cons a s t : String a s +:+ t = String a (s +:+ t).
Proof. reflexivity. Qed.

Lemma append_nil_r s : s +:+ "" = s.
Proof. induction s as [|a s IH]; [done |]. by rewrite append_cons, IH. Qed.

Lemma append_assoc s t u : (s +:+ t) +:+ u = s +:+ (t +:+ u).
Proof. induction s as [|a s IH]; [done |]. by rewrite !append_cons, IH. Qed.

Lemma length_append s t :
  String.length (s +:+ t) = String.length s + String.length t.
Proof.
  induction s as [|a s IH]; [done |]. rewrite append_cons. simpl. by rewrite IH.
Qed.

Lemma all_append p s t : Str.all p (s +:+ t) = Str.all p s && Str.all p t.
Proof.
  induction s as [|a s IH]; [done |]. rewrite append_cons. simpl.
  by rewrite IH, andb_assoc.
Qed.

Lemma has_append p s t : Str.has p (s +:+ t) = Str.has p s || Str.has p t.
Proof.
  induction s as [|a s IH]; [done |]. rewrite append_cons. simpl.
  by rewrite IH, orb_assoc.
Qed.

Lemma append_inv_head s t u : s +:+ t = s +:+ u → t = u.
Proof.
  induction s as [|a s IH]; [done |]. rewrite !append_cons. intros [=]. auto.
Qed.

End StrFacts.

(** ** The matcher *)

Section RegexpFacts.

Implicit Types (s t w m : string) (p : ascii → bool) (r : regex) (i : nat).

Lemma star_sound p s m s' :
  (m, s') ∈ star p s → s = m +:+ s' ∧ Str.all p m = true.
Proof.
  revert m s'. induction s as [|a s IH]; simpl; intros m s'.
  - by intros [= -> ->]%list_elem_of_singleton.
  - destruct (p a) eqn:Hpa.
    + rewrite elem_of_app, list_elem_of_fmap, list_elem_of_singleton.
      intros [([m0 s0] & [= -> ->] & Hin) | [= -> ->]]; [|done].
      apply IH in Hin as [-> Hm]. rewrite append_cons. simpl.
      by rewrite Hpa, Hm.
    + by intros [= -> ->]%list_elem_of_singleton.
Qed.

Lemma star_last p s :
  ∃ init, star p s = init ++ [("", s)] ∧ ∀ m s', (m, s') ∈ init → m ≠ "".
Proof.
  induction s as [|a s IH]; simpl.
  - exists []. split; [done |]. by intros ?? ?%elem_of_nil.
  - destruct (p a).
    + eexists. split; [done |].
      intros m s' ([m0 s0] & [= -> ->] & _)%list_elem_of_fmap. done.
    + exists []. split; [done |]. by intros ?? ?%elem_of_nil.
Qed.

Lemma star_stop p s : Str.starts p s = false → star p s = [("", s)].
Proof. destruct s as [|a s]; simpl; [done |]. by intros ->. Qed.

Lemma star_append p w s :
  Str.all p w = true →
  ∃ tl, star p (w +:+ s) = (prod_map (String.append w) id <$> star p s) ++ tl.
Proof.
  induction w as [|a w IH]; simpl.
  - intros _. exists []. rewrite app_nil_r, append_nil_l.
    induction (star p s) as [|[m0 s0] l IHl]; [reflexivity |].
    rewrite fmap_cons, <-IHl. reflexivity.
  - intros [Hpa Hw]%andb_true_iff. destruct (IH Hw) as [tl Htl].
    rewrite ?append_cons. simpl. rewrite Hpa, Htl.
    eexists. rewrite fmap_app, <-app_assoc, <-list_fmap_compose. done.
Qed.

Lemma plus_sound p s m s' :
  (m, s') ∈ plus p s → s = m +:+ s' ∧ Str.all p m = true ∧ m ≠ "".
Proof.
  destruct s as [|a s]; simpl; [by intros ?%elem_of_nil |].
  destruct (p a) eqn:Hpa; [| by intros ?%elem_of_nil].
  intros ([m0 s0] & [= -> ->] & [-> Hm]%star_sound)%list_elem_of_fmap.
  rewrite append_cons. simpl. by rewrite Hpa, Hm.
Qed.

Lemma plus_append p w s :
  Str.all p w = true → w ≠ "" →
  ∃ tl, plus p (w +:+ s) = (prod_map (String.append w) id <$> star p s) ++ tl.
Proof.
  destruct w as [|a w]; [done |]. simpl.
  intros [Hpa Hw]%andb_true_iff _. destruct (star_append p w s Hw) as [tl Htl].
  rewrite ?append_cons. simpl. rewrite Hpa, Htl.
  eexists. rewrite fmap_app, <-list_fmap_compose. done.
Qed.

Lemma plus_stop p s : Str.starts p s = false → plus p s = [].
Proof. destruct s as [|a s]; simpl; [done |]. by intros ->. Qed.

(** The first success of a concatenation: the alternatives of [r1] that
    come before are dead ends for [r2]. *)
Lemma match_at_Cat r1 r2 i s init c1 m1 s1 tl c2 m2 s2 :
  run r1 i s = init ++ (c1, m1, s1) :: tl →
  (∀ c m s', (c, m, s') ∈ init → run r2 (i + String.length m) s' = []) →
  match_at r2 (i + String.length m1) s1 = Some (c2, m2, s2) →
  match_at (Cat r1 r2) i s = Some (c1 ++ c2, m1 +:+ m2, s2).
Proof.
  unfold match_at. simpl. intros -> Hinit Hr2.
  rewrite bind_app, bind_cons.
  assert (init ≫= (λ '(c1, m1, s1),
            run r2 (i + String.length m1) s1 ≫=
              (λ '(c2, m2, s2), [((c1 ++ c2)%list, m1 +:+ m2, s2)])) = [])
    as ->.
  { clear -Hinit. induction init as [|[[c m] s'] init IH]; [done |].
    rewrite bind_cons, (Hinit c m s') by left. simpl.
    apply IH. intros c' m' s'' Hin. apply (Hinit c'). by right. }
  simpl. destruct (run r2 _ s1) as [|[[c m] s'] l]; [done |].
  simpl in *. by simplify_eq.
Qed.

Lemma match_at_Group r i s c m s' :
  match_at r i s = Some (c, m, s') →
  match_at (Group r) i s = Some (m :: c, m, s').
Proof.
  unfold match_at. simpl.
  destruct (run r i s) as [|[[c0 m0] s0] l]; [done |].
  simpl. by intros [= -> -> ->].
Qed.

End RegexpFacts.

Section RxMakefile.

Implicit Types (s t w m K V : string) (p : ascii → bool) (r : regex) (i : nat).

Lemma bind_nil_all {A B} (f : A → list B) (l : list A) :
  (∀ x, x ∈ l → f x = []) → l ≫= f = [].
Proof.
  induction l as [|x l IH]; [done |]. intros Hf.
  rewrite bind_cons, (Hf x) by left. apply IH. intros y Hy. apply Hf. by right.
Qed.

Lemma run_Group_Plus p i s :
  run (Group (Plus p)) i s = (λ '(m, s'), ([m], m, s')) <$> plus p s.
Proof.
  simpl. induction (plus p s) as [|[m s'] l IH]; [done |].
  rewrite fmap_cons, bind_cons, IH. done.
Qed.

Lemma all_has p q s :
  (∀ a, p a = true → q a = false) → Str.all p s = true → Str.has q s = false.
Proof.
  intros Hpq. induction s as [|a s IH]; [done |]. simpl.
  intros [Ha Hs]%andb_true_iff. by rewrite (Hpq a Ha), IH.
Qed.

Lemma space_not_eq a : space a = true → Str.eqc "=" a = false.
Proof.
  unfold space, Str.eqc. destruct (Ascii.eqb_spec a "=") as [-> |]; [| done].
  vm_compute. done.
Qed.

(** The tail [(.+)$] takes the whole rest of the line. *)
Lemma match_at_value i V :
  V ≠ "" → Str.all dot V = true →
  match_at (Cat (Group (Plus dot)) Eol) i V = Some ([V], V, "").
Proof.
  intros HV Hdot.
  destruct (plus_append dot V "" Hdot HV) as [tl Htl].
  rewrite append_nil_r in Htl. simpl in Htl. rewrite append_nil_r in Htl.
  pose proof (match_at_Cat (Group (Plus dot)) Eol i V [] [V] V "" _ [] "" ""
                (eq_trans (run_Group_Plus dot i V)
                   (f_equal (fmap _) Htl))) as H.
  rewrite append_nil_r in H. apply H; [by intros ??? ?%elem_of_nil | done].
Qed.

(** [\s*] followed by something that does not start with white space
    takes all the white space. *)
Lemma match_at_spaces r i w s c m s' :
  Str.all space w = true → Str.starts space s = false →
  match_at r (i + String.length w) s = Some (c, m, s') →
  match_at (Cat (Star space) r) i (w +:+ s) = Some (c, w +:+ m, s').
Proof.
  intros Hw Hs Hr.
  destruct (star_append space w s Hw) as [tl Htl].
  rewrite (star_stop _ _ Hs) in Htl. simpl in Htl. rewrite append_nil_r in Htl.
  apply (match_at_Cat (Star space) r i (w +:+ s) [] [] w s
           ((λ '(m, s'), ([], m, s')) <$> tl)); [| by intros ??? ?%elem_of_nil | done].
  simpl. by rewrite Htl.
Qed.

(** Without an equals sign there is nothing for [\s*=...] to match. *)
Lemma run_needs_eq r i s :
  Str.has (Str.eqc "=") s = false → run (Cat (Star space) (Cat (Lit "=") r)) i s = [].
Proof.
  intros Hs. cbn [run]. apply bind_nil_all.
  intros [[c m] s'] ([m0 s0] & [= -> -> ->] & [-> _]%star_sound)%list_elem_of_fmap.
  rewrite has_append in Hs. apply orb_false_iff in Hs as [_ Hs].
  destruct s0 as [|a s0]; [done |]. simpl in Hs.
  apply orb_false_iff in Hs as [Ha _]. unfold Str.eqc in Ha.
  cbn [run]. by rewrite Ha.
Qed.

Lemma starts_nonspace V : Str.starts nonspace V = true → V ≠ "" ∧ Str.starts space V = false.
Proof.
  destruct V as [|a V]; [done |]. simpl. unfold nonspace.
  intros ?%negb_true_iff. done.
Qed.

Lemma match_at_rxMakefile K w1 w2 V :
  K ≠ "" → Str.all nonspace K = true →
  Str.all space w1 = true → Str.all space w2 = true →
  Str.starts nonspace V = true → Str.all dot V = true →
  (w1 ≠ "" ∨ Str.has (Str.eqc "=") V = false) →
  match_at rxMakefile 0 (K +:+ w1 +:+ "=" +:+ w2 +:+ V)
  = Some ([K; V], K +:+ w1 +:+ "=" +:+ w2 +:+ V, "").
Proof.
  intros HK HKns Hw1 Hw2 [HV HVs]%starts_nonspace Hdot Heq.
  set (rest := w1 +:+ "=" +:+ w2 +:+ V).
  set (R5 := Cat (Group (Plus dot)) Eol).
  set (R3 := Cat (Lit "=") (Cat (Star space) R5)).
  (* from the equals sign on *)
  assert (∀ i, match_at R3 i ("=" +:+ w2 +:+ V)
               = Some ([V], "=" +:+ w2 +:+ V, "")) as H3.
  { intros i.
    apply (match_at_Cat (Lit "=") (Cat (Star space) R5) i _ [] [] "=" (w2 +:+ V)
             [] [V] (w2 +:+ V) ""); [done | by intros ??? ?%elem_of_nil |].
    apply match_at_spaces; [done | done |]. by apply match_at_value. }
  assert (∀ i, match_at (Cat (Star space) R3) i rest = Some ([V], rest, ""))
    as H2.
  { intros i. apply match_at_spaces; [done | done | apply H3]. }
  (* the key *)
  destruct (plus_append nonspace K rest HKns HK) as [tl Htl].
  destruct (star_last nonspace rest) as (init & Hstar & Hinit).
  assert (∀ m s', (m, s') ∈ init → Str.has (Str.eqc "=") s' = false) as Hdead.
  { intros m s' Hin. pose proof (Hinit m s' Hin) as Hm.
    assert ((m, s') ∈ star nonspace rest) as [Hsplit Hns]%star_sound.
    { rewrite Hstar. apply elem_of_app. by left. }
    destruct m as [|a m]; [done |]. simpl in Hns.
    apply andb_true_iff in Hns as [Ha _].
    unfold rest in Hsplit. destruct w1 as [|b w1].
    - destruct Heq as [? | HVeq]; [done |].
      rewrite append_nil_l, !append_cons, append_nil_l in Hsplit.
      injection Hsplit as _ Hsplit.
      assert (Str.has (Str.eqc "=") (w2 +:+ V) = false) as Hno.
      { rewrite has_append, HVeq, orb_false_r.
        apply (all_has space); [apply space_not_eq | done]. }
      rewrite Hsplit, has_append in Hno. by apply orb_false_iff in Hno as [_ ?].
    - rewrite !append_cons in Hsplit. injection Hsplit as -> _.
      simpl in Hw1. apply andb_true_iff in Hw1 as [Hb _].
      unfold nonspace in Ha. by rewrite Hb in Ha. }
  apply (match_at_Cat Bol _ 0 _ [] [] "" (K +:+ rest) [] [K; V] (K +:+ rest) "");
    [done | by intros ??? ?%elem_of_nil |].
  simpl String.length.
  pose proof (match_at_Cat (Group (Plus nonspace)) (Cat (Star space) R3) 0
                (K +:+ rest)
                ((λ '(m, s'), ([m], m, s')) <$>
                   (prod_map (String.append K) id <$> init))
                [K] K rest
                ((λ '(m, s'), ([m], m, s')) <$> tl) [V] rest "") as H1.
  apply H1.
  - rewrite run_Group_Plus, Htl, Hstar, !fmap_app. simpl.
    rewrite append_nil_r, <-app_assoc. done.
  - intros c m s' ([m1 s1] & [= -> -> ->] & ([m0 s0] & [= -> ->] & Hin)%list_elem_of_fmap)%list_elem_of_fmap.
    apply run_needs_eq. simpl. by apply (Hdead m0).
  - apply H2.
Qed.

End RxMakefile.

Section RxMakefileSound.

Implicit Types (s t w m K V text : string) (i : nat).

Lemma run_Cat_elem r1 r2 i s c m s' :
  (c, m, s') ∈ run (Cat r1 r2) i s →
  ∃ c1 m1 s1 c2 m2,
    (c1, m1, s1) ∈ run r1 i s
    ∧ (c2, m2, s') ∈ run r2 (i + String.length m1) s1
    ∧ c = c1 ++ c2 ∧ m = m1 +:+ m2.
Proof.
  cbn [run].
  intros ([[c1 m1] s1] & ([[c2 m2] s2] & Hx & H2)%list_elem_of_bind & H1)%list_elem_of_bind.
  apply list_elem_of_singleton in Hx as [= -> -> ->].
  by exists c1, m1, s1, c2, m2.
Qed.

Lemma run_Group_elem r i s c m s' :
  (c, m, s') ∈ run (Group r) i s → ∃ c0, c = m :: c0 ∧ (c0, m, s') ∈ run r i s.
Proof.
  cbn [run]. intros ([[c0 m0] s0] & Hx & H)%list_elem_of_bind.
  apply list_elem_of_singleton in Hx as [= -> -> ->]. by exists c0.
Qed.

Lemma run_Star_elem p i s c m s' :
  (c, m, s') ∈ run (Star p) i s →
  c = [] ∧ s = m +:+ s' ∧ Str.all p m = true.
Proof.
  cbn [run]. intros ([m0 s0] & [= -> -> ->] & H)%list_elem_of_fmap.
  by apply star_sound in H as [-> ?].
Qed.

Lemma run_Plus_elem p i s c m s' :
  (c, m, s') ∈ run (Plus p) i s →
  c = [] ∧ s = m +:+ s' ∧ Str.all p m = true ∧ m ≠ "".
Proof.
  cbn [run]. intros ([m0 s0] & [= -> -> ->] & H)%list_elem_of_fmap.
  by apply plus_sound in H as (-> & ? & ?).
Qed.

Lemma run_Lit_elem a i s c m s' :
  (c, m, s') ∈ run (Lit a) i s → c = [] ∧ m = String a "" ∧ s = String a s'.
Proof.
  destruct s as [|b s]; cbn [run]; [by intros ?%elem_of_nil |].
  destruct (Ascii.eqb_spec b a) as [-> |]; [| by intros ?%elem_of_nil].
  by intros [= -> -> ->]%list_elem_of_singleton.
Qed.

Lemma run_Bol_elem i s c m s' :
  (c, m, s') ∈ run Bol i s → i = 0 ∧ c = [] ∧ m = "" ∧ s' = s.
Proof.
  destruct i; cbn [run]; [| by intros ?%elem_of_nil].
  by intros [= -> -> ->]%list_elem_of_singleton.
Qed.

Lemma run_Eol_elem i s c m s' :
  (c, m, s') ∈ run Eol i s → c = [] ∧ m = "" ∧ s = "" ∧ s' = "".
Proof.
  destruct s; cbn [run]; [| by intros ?%elem_of_nil].
  by intros [= -> -> ->]%list_elem_of_singleton.
Qed.

Lemma run_rxMakefile_sound i text c m s' :
  (c, m, s') ∈ run rxMakefile i text →
  i = 0 ∧ m = text ∧ s' = "" ∧ ∃ K V, c = [K; V] ∧ key_value text K V.
Proof.
  unfold rxMakefile.
  intros (c0 & m0 & s0 & ca & ma & (-> & -> & -> & ->)%run_Bol_elem & H & -> & ->)%run_Cat_elem.
  apply run_Cat_elem in H
    as (c1 & K & s1 & cb & mb & (c1' & -> & (-> & -> & HK & HK0)%run_Plus_elem)%run_Group_elem & H & -> & ->).
  apply run_Cat_elem in H
    as (c2 & w1 & s2 & cc & mc & (-> & -> & Hw1)%run_Star_elem & H & -> & ->).
  apply run_Cat_elem in H
    as (c3 & m3 & s3 & cd & md & (-> & -> & ->)%run_Lit_elem & H & -> & ->).
  apply run_Cat_elem in H
    as (c4 & w2 & s4 & ce & me & (-> & -> & Hw2)%run_Star_elem & H & -> & ->).
  apply run_Cat_elem in H
    as (c5 & V & s5 & cf & mf & (c5' & -> & (-> & -> & HV & HV0)%run_Plus_elem)%run_Group_elem & H & -> & ->).
  apply run_Eol_elem in H as (-> & -> & -> & ->).
  rewrite !append_nil_r, !append_nil_l. cbn [app].
  split; [done |]. split; [done |]. split; [done |].
  exists K, V. split; [done |]. exists w1, w2. done.
Qed.

Lemma find_from_Bol r i s : find_from (Cat Bol r) (S i) s = None.
Proof. revert i. induction s as [|a s IH]; intros i; simpl; [done | apply IH]. Qed.

Lemma find_from_rxMakefile text :
  find_from rxMakefile 0 text = match_at rxMakefile 0 text.
Proof.
  unfold rxMakefile.
  destruct text as [|a text]; unfold find_from; fold find_from.
  - by destruct (match_at _ 0 "").
  - destruct (match_at _ 0 (String a text)); [done | apply find_from_Bol].
Qed.

(** [parts] is nil or the line, the key and the value. *)
Lemma FindStringSubmatch_rxMakefile text :
  FindStringSubmatch rxMakefile text = []
  ∨ ∃ K V, FindStringSubmatch rxMakefile text = [text; K; V]
           ∧ key_value text K V.
Proof.
  unfold FindStringSubmatch. rewrite find_from_rxMakefile. unfold match_at.
  destruct (run rxMakefile 0 text) as [|[[c m] s'] l] eqn:Hrun; [by left |].
  right. simpl.
  assert ((c, m, s') ∈ run rxMakefile 0 text) as Hin by (rewrite Hrun; left).
  apply run_rxMakefile_sound in Hin as (_ & -> & -> & K & V & -> & HKV).
  by exists K, V.
Qed.

Lemma FindStringSubmatch_rxMakefile_first K w1 w2 V :
  K ≠ "" → Str.all nonspace K = true →
  Str.all space w1 = true → Str.all space w2 = true →
  Str.starts nonspace V = true → Str.all dot V = true →
  (w1 ≠ "" ∨ Str.has (Str.eqc "=") V = false) →
  FindStringSubmatch rxMakefile (K +:+ w1 +:+ "=" +:+ w2 +:+ V)
  = [K +:+ w1 +:+ "=" +:+ w2 +:+ V; K; V].
Proof.
  intros. unfold FindStringSubmatch.
  by rewrite find_from_rxMakefile, match_at_rxMakefile.
Qed.

Lemma scanLine_skip (mapCompiler : gmap string string) text :
  FindStringSubmatch rxMakefile text = [] → scanLine mapCompiler text = mapCompiler.
Proof. unfold scanLine. by intros ->. Qed.

Lemma scanLine_set (mapCompiler : gmap string string) text whole K V :
  FindStringSubmatch rxMakefile text = [whole; K; V] →
  scanLine mapCompiler text = <[K := V]> mapCompiler.
Proof. unfold scanLine. by intros ->. Qed.

Lemma ParseSymbols_snoc lines text :
  ParseSymbols (lines ++ [text]) = scanLine (ParseSymbols lines) text.
Proof. unfold ParseSymbols. by rewrite foldl_snoc. Qed.

End RxMakefileSound.

(** ** The [range] loop *)

Section Resolve.

Implicit Types (m : gmap string string) (order l : list string) (k key v : string).

Lemma key_order_NoDup m order : key_order m order → NoDup order.
Proof. intros ->. apply NoDup_fst_map_to_list. Qed.

Lemma key_order_elem m order k : key_order m order → k ∈ order ↔ is_Some (m !! k).
Proof.
  intros ->. rewrite list_elem_of_fmap. split.
  - intros ([k' v] & -> & Hin%elem_of_map_to_list). by exists v.
  - intros [v Hv]. exists (k, v). by rewrite elem_of_map_to_list.
Qed.

Lemma resolveKey_lookup_ne m k k' : k ≠ k' → resolveKey m k !! k' = m !! k'.
Proof.
  intros Hne. unfold resolveKey. destruct (m !! k); [| done].
  by rewrite lookup_insert_ne.
Qed.

Lemma resolveKey_lookup m k v :
  m !! k = Some v → resolveKey m k !! k = Some (resolveValue m v).
Proof. intros Hk. unfold resolveKey. rewrite Hk. apply lookup_insert_eq. Qed.

Lemma resolveKey_dom m k : dom (resolveKey m k) = dom m.
Proof.
  unfold resolveKey. destruct (m !! k) eqn:Hk; [| done].
  by apply dom_insert_lookup_L.
Qed.

Lemma ResolveReferences_snoc l k m :
  ResolveReferences (l ++ [k]) m = resolveKey (ResolveReferences l m) k.
Proof. unfold ResolveReferences. by rewrite foldl_snoc. Qed.

Lemma ResolveReferences_app l1 l2 m :
  ResolveReferences (l1 ++ l2) m = ResolveReferences l2 (ResolveReferences l1 m).
Proof. unfold ResolveReferences. by rewrite foldl_app. Qed.

Lemma ResolveReferences_dom order m : dom (ResolveReferences order m) = dom m.
Proof.
  induction order as [|k l IH] using rev_ind; [done |].
  by rewrite ResolveReferences_snoc, resolveKey_dom.
Qed.

Lemma ResolveReferences_lookup_notin order m k :
  k ∉ order → ResolveReferences order m !! k = m !! k.
Proof.
  induction order as [|k' l IH] using rev_ind; [done |].
  rewrite elem_of_app, list_elem_of_singleton. intros Hk.
  rewrite ResolveReferences_snoc, resolveKey_lookup_ne by naive_solver.
  apply IH. naive_solver.
Qed.

(** The value of a key is computed once, from the value parsed for it
    and from the map as the earlier iterations left it. *)
Lemma ResolveReferences_one_pass l1 k l2 m v :
  NoDup (l1 ++ k :: l2) → m !! k = Some v →
  ResolveReferences (l1 ++ k :: l2) m !! k
  = Some (resolveValue (ResolveReferences l1 m) v).
Proof.
  intros (_ & Hl1 & [Hl2 _]%NoDup_cons)%NoDup_app Hk.
  rewrite ResolveReferences_app. change (k :: l2) with ([k] ++ l2).
  rewrite ResolveReferences_app, ResolveReferences_lookup_notin by done.
  apply resolveKey_lookup. rewrite ResolveReferences_lookup_notin; [done |].
  intros Hin. apply (Hl1 k Hin). left.
Qed.

(** The substitution only reads the map at the referenced keys. *)
Lemma substitute_agree m m' v :
  (∀ key, key ∈ references v → mapIndex m key = mapIndex m' key) →
  substitute m v = substitute m' v.
Proof.
  unfold substitute, references.
  generalize (FindAllString rxCompilerVar v). generalize v.
  intros acc l. revert acc. induction l as [|var l IH]; intros acc Hl; [done |].
  simpl. rewrite (Hl (ReplaceAllString_1 rxCompilerVar var)) by (rewrite fmap_cons; left).
  apply IH. intros key Hkey. apply Hl. rewrite fmap_cons. by right.
Qed.


Lemma resolveValue_inert m v : inert v → resolveValue m v = v.
Proof. intros [Hnone Hpatch]. unfold resolveValue, substitute. by rewrite Hnone. Qed.

Lemma settled_lookup m order :
  settled m → NoDup order →
  ∀ k, ResolveReferences order m !! k
       = if decide (k ∈ order) then resolveValue m <$> m !! k else m !! k.
Proof.
  intros Hm. induction order as [|x l IH] using rev_ind; intros Hnd k.
  { by rewrite decide_False by apply not_elem_of_nil. }
  apply NoDup_app in Hnd as (Hl & Hx & _). specialize (IH Hl).
  assert (x ∉ l) as Hxl.
  { intros Hin. apply (Hx x Hin). left. }
  rewrite ResolveReferences_snoc.
  destruct (decide (k = x)) as [-> | Hne].
  - rewrite decide_True by (apply elem_of_app; right; left).
    unfold resolveKey. rewrite (IH x), decide_False by done.
    destruct (m !! x) as [v |] eqn:Hv; simpl.
    + rewrite lookup_insert_eq. f_equal. unfold resolveValue. f_equal.
      apply substitute_agree. intros key Hkey. unfold mapIndex.
      rewrite (IH key). case_decide; [| done].
      destruct (m !! key) as [v' |] eqn:Hv'; [| done]. simpl.
      rewrite resolveValue_inert; [done |].
      pose proof (Hm x v Hv) as Hrefs. rewrite Forall_forall in Hrefs.
      specialize (Hrefs key Hkey). by rewrite Hv' in Hrefs.
    + by rewrite IH, decide_False, Hv.
  - rewrite resolveKey_lookup_ne by (by intros ->). rewrite IH.
    destruct (decide (k ∈ l)) as [Hin | Hnin].
    + by rewrite decide_True by (apply elem_of_app; by left).
    + rewrite decide_False; [done |].
      rewrite elem_of_app, list_elem_of_singleton. by intros [? | ->].
Qed.

(** On a settled map the loop computes the same map in every order. *)
Lemma settled_ResolveReferences m order :
  settled m → key_order m order →
  ResolveReferences order m = resolveValue m <$> m.
Proof.
  intros Hm Ho. apply map_eq. intros k.
  rewrite (settled_lookup m order Hm (key_order_NoDup _ _ Ho)), lookup_fmap.
  case_decide as Hk; [done |].
  rewrite (key_order_elem _ _ k Ho) in Hk.
  destruct (m !! k) eqn:Hmk; [| done]. destruct Hk. by eexists.
Qed.

End Resolve.

(** ** [strings.Replace] *)

Section ReplaceFacts.

Implicit Types (s old new l r x : string).

Lemma prefix_append old r : String.prefix old (old +:+ r) = true.
Proof.
  induction old as [|a old IH]; [by destruct r |].
  rewrite append_cons. simpl. by destruct (ascii_dec a a).
Qed.

Lemma replace_skip old new x s :
  replace old new (String.length x) (x +:+ s) = replace old new 0 s.
Proof.
  induction x as [|a x IH]; [done |]. rewrite append_cons. exact IH.
Qed.

(** The first occurrence of [old] is replaced and the search resumes
    behind it. *)
Lemma replace_first old new l r :
  old ≠ "" → no_occurrence old l (old +:+ r) = true →
  replace old new 0 (l +:+ old +:+ r) = l +:+ new +:+ replace old new 0 r.
Proof.
  intros Hold. induction l as [|a l IH]; intros Hl.
  - rewrite !append_nil_l. destruct old as [|b old]; [done |].
    rewrite append_cons. cbn [replace]. rewrite <-append_cons, prefix_append.
    f_equal.
    assert (String.length (String b old) - 1 = String.length old) as ->
      by (simpl; lia).
    apply replace_skip.
  - cbn [no_occurrence] in Hl. apply andb_true_iff in Hl as [Hno Hl].
    apply negb_true_iff in Hno. rewrite !append_cons in *.
    cbn [replace]. rewrite Hno. f_equal. by apply IH.
Qed.

End ReplaceFacts.

Lemma Replace_cons s a old new :
  String a old ≠ new →
  Replace s (String a old) new = replace (String a old) new 0 s.
Proof. intros Hne. unfold Replace. by rewrite decide_False. Qed.

Lemma Replace_bigObj_first l r :
  no_occurrence bigObj l (bigObj +:+ r) = true →
  Replace r bigObj " " = r →
  Replace (l +:+ bigObj +:+ r) bigObj " " = l +:+ " " +:+ r.
Proof.
  assert (∃ a old, bigObj = String a old ∧ bigObj ≠ " ")
    as (a & old & Hbig & Hne) by (by eexists _, _).
  intros Hl Hr. revert Hr. rewrite Hbig in *. rewrite !Replace_cons by done.
  intros Hr. rewrite replace_first; [by rewrite Hr | done | done].
Qed.

(** ** Lines of a text *)

Section LinesFacts.

Implicit Types (s t : string).

Lemma lines_one s : Str.has (Str.eqc "010") s = false → Str.lines s = [s].
Proof.
  induction s as [|a s IH]; [done |]. simpl.
  intros [Ha Hs]%orb_false_iff. unfold Str.eqc in Ha. rewrite Ha, IH; done.
Qed.

Lemma lines_append s t :
  Str.has (Str.eqc "010") s = false →
  Str.lines (s +:+ nl +:+ t) = s :: Str.lines t.
Proof.
  induction s as [|a s IH]; [done |]. rewrite append_cons. simpl.
  intros [Ha Hs]%orb_false_iff. unfold Str.eqc in Ha. rewrite Ha, IH; done.
Qed.

End LinesFacts.

(** ** ParseSymbols *)

Section ParseFacts.

Implicit Types (text pre K V x y : string) (lines : list string).

Lemma key_value_starts text K V :
  key_value text K V → Str.starts space text = false.
Proof.
  intros (w1 & w2 & -> & HK & HKns & _).
  destruct K as [|a K]; [done |]. simpl in *.
  apply andb_true_iff in HKns as [Ha _]. unfold nonspace in Ha.
  by apply negb_true_iff in Ha.
Qed.

Lemma last_eq_only pre x y :
  pre +:+ "=" = x +:+ "=" +:+ y → y ≠ "" → Str.has (Str.eqc "=") pre = true.
Proof.
  revert x. induction pre as [|b pre IH]; intros x Heq Hy.
  - destruct x as [|a x].
    + rewrite !append_nil_l in Heq. destruct y; [done |]. discriminate.
    + rewrite append_nil_l, append_cons in Heq. injection Heq as _ Heq.
      destruct x; discriminate.
  - destruct x as [|a x].
    + rewrite append_nil_l, !append_cons in Heq. by injection Heq as -> _.
    + rewrite !append_cons in Heq. injection Heq as _ Heq.
      simpl. rewrite (IH x Heq Hy). apply orb_true_r.
Qed.

Lemma FindStringSubmatch_trailing_eq pre :
  Str.has (Str.eqc "=") pre = false →
  FindStringSubmatch rxMakefile (pre +:+ "=") = [].
Proof.
  intros Hpre.
  destruct (FindStringSubmatch_rxMakefile (pre +:+ "="))
    as [Hnone | (K & V & _ & w1 & w2 & Heq & _ & _ & _ & _ & HV & _)]; [done |].
  rewrite <-(append_assoc K w1) in Heq.
  apply last_eq_only in Heq; [congruence |].
  destruct w2; [done | discriminate].
Qed.

Lemma ParseSymbols_value_nonempty lines K V :
  ParseSymbols lines !! K = Some V → V ≠ "".
Proof.
  revert K V. induction lines as [|text lines IH] using rev_ind; intros K V.
  { unfold ParseSymbols. simpl. by rewrite lookup_empty. }
  rewrite ParseSymbols_snoc.
  destruct (FindStringSubmatch_rxMakefile text)
    as [Hnone | (K' & V' & Hsome & w1 & w2 & _ & _ & _ & _ & _ & HV' & _)].
  - rewrite (scanLine_skip _ _ Hnone). apply IH.
  - rewrite (scanLine_set _ _ _ _ _ Hsome).
    destruct (decide (K' = K)) as [-> | Hne].
    + rewrite lookup_insert_eq. by intros [= <-].
    + rewrite lookup_insert_ne by done. apply IH.
Qed.

End ParseFacts.

(** ** Orders of a given table *)

Section Orders.

Implicit Types (m : gmap string string) (order : list string) (key v : string).

Lemma key_order_permutations m order :
  key_order m order → order ∈ permutations (map_to_list m).*1.
Proof. intros Ho. apply permutations_Permutation. by symmetry. Qed.

Lemma ResolveReferences_lookup m order key v :
  key_order m order → m !! key = Some v →
  ∃ l1 l2,
    order = l1 ++ key :: l2
    ∧ ResolveReferences order m !! key
      = Some (resolveValue (ResolveReferences l1 m) v).
Proof.
  intros Ho Hkey.
  assert (key ∈ order) as (l1 & l2 & ->)%list_elem_of_split.
  { apply (key_order_elem _ _ _ Ho). by eexists. }
  exists l1, l2. split; [done |].
  apply ResolveReferences_one_pass; [| done]. by eapply key_order_NoDup.
Qed.

End Orders.


(** Case analysis on the orders of a closed table. *)
Ltac by_orders H :=
  apply key_order_permutations in H; vm_compute in H;
  repeat (apply elem_of_cons in H as [-> | H]);
  [.. | by apply elem_of_nil in H].

(** ** Examples *)

Example rxMakefile_plain :
  FindStringSubmatch rxMakefile "A = 1" = ["A = 1"; "A"; "1"].
Proof. reflexivity. Qed.

Example rxMakefile_tight :
  FindStringSubmatch rxMakefile "A=B=C" = ["A=B=C"; "A=B"; "C"].
Proof. reflexivity. Qed.

Example rxMakefile_none :
  FindStringSubmatch rxMakefile "not a kv line" = [].
Proof. reflexivity. Qed.

Example rxCompilerVar_all :
  FindAllString rxCompilerVar "-I$(QTDIR)/include -L$(QTDIR)/lib $(X)$(Y)"
  = ["$(QTDIR)"; "$(QTDIR)"; "$(X)$(Y)"].
Proof. reflexivity. Qed.

Example rxCompilerVar_key :
  ReplaceAllString_1 rxCompilerVar "$(QTDIR)" = "QTDIR".
Proof. reflexivity. Qed.

Example Replace_all : Replace "a-b-c" "-" "+" = "a+b+c".
Proof. reflexivity. Qed.

Example Replace_no_overlap : Replace "aaa" "aa" "b" = "ba".
Proof. reflexivity. Qed.

Example TrimSpace_ascii :
  TrimSpace (String "009" " x y " +:+ String "011" (String "013" "")) = "x y".
Proof. reflexivity. Qed.

(** U+00A0 (C2 A0) and U+3000 (E3 80 80) are white space, a lone
    continuation byte is not. *)
Example TrimSpace_unicode :
  TrimSpace (String "194" (String "160" "x")
               +:+ String "128" (String "227" (String "128" (String "128" ""))))
  = String "120" (String "128" "").
Proof. reflexivity. Qed.

Example parse_two : ParseSymbols ["not a kv line"; "A = 1"] = {[ "A" := "1" ]}.
Proof. vm_compute. reflexivity. Qed.

(** ** Placeholders *)

Ltac str_norm :=
  repeat (rewrite append_cons || rewrite append_nil_l || rewrite append_assoc).

Section RxCompilerVar.

Implicit Types (s t w m K rest : string) (i : nat).

Lemma run_rxCompilerVar_sound i s c m s' :
  (c, m, s') ∈ run rxCompilerVar i s →
  ∃ K, c = [K] ∧ m = placeholder K ∧ s = m +:+ s'
       ∧ K ≠ "" ∧ Str.all nonspace K = true.
Proof.
  unfold rxCompilerVar.
  intros (c0 & m0 & s0 & ca & ma & (-> & -> & ->)%run_Lit_elem & H & -> & ->)%run_Cat_elem.
  apply run_Cat_elem in H
    as (c1 & m1 & s1 & cb & mb & (-> & -> & ->)%run_Lit_elem & H & -> & ->).
  apply run_Cat_elem in H
    as (c2 & K & s2 & cc & mc & (c2' & -> & (-> & -> & HK & HK0)%run_Plus_elem)%run_Group_elem & H & -> & ->).
  apply run_Lit_elem in H as (-> & -> & ->).
  exists K. unfold placeholder.
  by str_norm.
Qed.

Lemma run_rxCompilerVar_offset i s : run rxCompilerVar i s = run rxCompilerVar 0 s.
Proof. unfold rxCompilerVar. cbn [run]. reflexivity. Qed.

Lemma match_at_rxCompilerVar_sound i s c m s' :
  match_at rxCompilerVar i s = Some (c, m, s') →
  ∃ K, c = [K] ∧ m = placeholder K ∧ s = m +:+ s'
       ∧ K ≠ "" ∧ Str.all nonspace K = true.
Proof.
  unfold match_at. intros Hhd. apply (run_rxCompilerVar_sound i).
  destruct (run rxCompilerVar i s) as [|x l]; [done |].
  simpl in Hhd. injection Hhd as ->. left.
Qed.

Lemma find_all_rxCompilerVar_sound skip i s variable :
  variable ∈ find_all rxCompilerVar skip i s →
  ∃ K l r, variable = placeholder K ∧ K ≠ "" ∧ Str.all nonspace K = true
           ∧ s = l +:+ variable +:+ r.
Proof.
  revert skip i. induction s as [|a s IH]; intros skip i; cbn [find_all].
  { by intros ?%elem_of_nil. }
  assert (∀ skip i, variable ∈ find_all rxCompilerVar skip i s →
            ∃ K l r, variable = placeholder K ∧ K ≠ "" ∧ Str.all nonspace K = true
                     ∧ String a s = l +:+ variable +:+ r) as IH'.
  { intros skip' i' (K & l & r & ? & ? & ? & ->)%IH.
    exists K, (String a l), r. by rewrite append_cons. }
  destruct skip as [|n]; [| apply IH'].
  destruct (match_at rxCompilerVar i (String a s)) as [[[c m] s'] |] eqn:Hm;
    [| apply IH'].
  intros [-> | Hin]%elem_of_cons; [| by eapply IH'].
  apply match_at_rxCompilerVar_sound in Hm as (K & -> & -> & Hs & HK & HKns).
  exists K, "", s'. by rewrite append_nil_l.
Qed.

(** What follows the closing parenthesis cannot close the placeholder
    again. *)
Lemma no_later_close m t rest s' :
  m +:+ s' = t +:+ rest →
  Str.all nonspace m = true →
  Str.has (Str.eqc ")") t = false →
  Str.starts nonspace rest = false →
  Str.starts (Str.eqc ")") s' = false.
Proof.
  revert t. induction m as [|a m IH]; intros t Heq Hm Ht Hrest.
  - rewrite append_nil_l in Heq. subst s'. destruct t as [|b t].
    + rewrite append_nil_l. destruct rest as [|b rest]; [done |].
      simpl in *. unfold Str.eqc. destruct (Ascii.eqb_spec b ")") as [-> |]; done.
    + rewrite append_cons. simpl in *. by apply orb_false_iff in Ht as [? _].
  - simpl in Hm. apply andb_true_iff in Hm as [Ha Hm]. destruct t as [|b t].
    + rewrite append_nil_l, append_cons in Heq. subst rest. simpl in Hrest.
      congruence.
    + rewrite !append_cons in Heq. injection Heq as -> Heq.
      simpl in Ht. apply orb_false_iff in Ht as [_ Ht]. by eapply IH.
Qed.

Lemma match_at_rxCompilerVar i K t rest :
  K ≠ "" → Str.all nonspace K = true →
  Str.all nonspace t = true → Str.has (Str.eqc ")") t = false →
  Str.starts nonspace rest = false →
  match_at rxCompilerVar i (placeholder K +:+ t +:+ rest)
  = Some ([K], placeholder K, t +:+ rest).
Proof.
  intros HK HKns Ht Hclose Hrest. unfold placeholder, rxCompilerVar.
  set (tail := ")" +:+ t +:+ rest).
  assert (("$(" +:+ K +:+ ")") +:+ t +:+ rest = "$" +:+ "(" +:+ K +:+ tail) as ->.
  { unfold tail. by str_norm. }
  assert ("$(" +:+ K +:+ ")" = "$" +:+ "(" +:+ K +:+ ")") as -> by done.
  apply (match_at_Cat (Lit "$") _ i _ [] [] "$" ("(" +:+ K +:+ tail) []
           [K] ("(" +:+ K +:+ ")") (t +:+ rest));
    [done | by intros ??? ?%elem_of_nil |].
  apply (match_at_Cat (Lit "(") _ _ _ [] [] "(" (K +:+ tail) []
           [K] (K +:+ ")") (t +:+ rest));
    [done | by intros ??? ?%elem_of_nil |].
  destruct (plus_append nonspace K tail HKns HK) as [tl Htl].
  destruct (star_last nonspace tail) as (init & Hstar & Hinit).
  apply (match_at_Cat (Group (Plus nonspace)) (Lit ")") _ (K +:+ tail)
           ((λ '(m, s'), ([m], m, s')) <$>
              (prod_map (String.append K) id <$> init))
           [K] K tail ((λ '(m, s'), ([m], m, s')) <$> tl) [] ")" (t +:+ rest)).
  - rewrite run_Group_Plus, Htl, Hstar, !fmap_app. simpl.
    rewrite append_nil_r, <-app_assoc. done.
  - intros c m s' ([m1 s1] & [= -> -> ->] & ([m0 s0] & [= -> ->] & Hin)%list_elem_of_fmap)%list_elem_of_fmap.
    simpl. pose proof (Hinit m0 s0 Hin) as Hm0.
    assert ((m0, s0) ∈ star nonspace tail) as [Hsplit Hns]%star_sound.
    { rewrite Hstar. apply elem_of_app. by left. }
    destruct m0 as [|a m0]; [done |]. unfold tail in Hsplit.
    rewrite !append_cons, append_nil_l in Hsplit. injection Hsplit as <- Hsplit.
    simpl in Hns.
    assert (Str.starts (Str.eqc ")") s0 = false) as Hs0.
    { by eapply (no_later_close m0 t rest). }
    destruct s0 as [|b s0]; cbn [run]; [done |].
    simpl in Hs0. unfold Str.eqc in Hs0. by rewrite Hs0.
  - unfold tail. done.
Qed.

Lemma replace_all_1_skip r skip i s :
  String.length s ≤ skip → replace_all_1 r skip i s = "".
Proof.
  revert skip i. induction s as [|a s IH]; intros skip i Hlen; [done |].
  simpl in Hlen. destruct skip as [|n]; [lia |]. cbn [replace_all_1].
  apply IH. lia.
Qed.

Lemma replace_all_1_match r i a s c m s' :
  match_at r i (String a s) = Some (c, m, s') →
  replace_all_1 r 0 i (String a s)
  = nth 0 c "" +:+ replace_all_1 r (String.length m - 1) (S i) s.
Proof. intros Hm. cbn [replace_all_1]. by rewrite Hm. Qed.

Lemma ReplaceAllString_1_placeholder K :
  K ≠ "" → Str.all nonspace K = true →
  ReplaceAllString_1 rxCompilerVar (placeholder K) = K.
Proof.
  intros HK HKns.
  pose proof (match_at_rxCompilerVar 0 K "" "" HK HKns eq_refl eq_refl eq_refl) as Hm.
  rewrite !append_nil_r in Hm.
  unfold ReplaceAllString_1. revert Hm. unfold placeholder.
  rewrite !append_cons, append_nil_l. intros Hm.
  rewrite (replace_all_1_match _ _ _ _ _ _ _ Hm). cbn [nth].
  rewrite replace_all_1_skip; [apply append_nil_r |].
  simpl. lia.
Qed.

Lemma match_at_rxCompilerVar_offset i j s :
  match_at rxCompilerVar i s = match_at rxCompilerVar j s.
Proof.
  unfold match_at.
  by rewrite (run_rxCompilerVar_offset i), (run_rxCompilerVar_offset j).
Qed.

Lemma find_all_rxCompilerVar_offset skip i j s :
  find_all rxCompilerVar skip i s = find_all rxCompilerVar skip j s.
Proof.
  revert skip i j. induction s as [|a s IH]; intros skip i j; [done |].
  cbn [find_all]. destruct skip as [|n]; [| apply IH].
  rewrite (match_at_rxCompilerVar_offset i j).
  destruct (match_at rxCompilerVar j (String a s)) as [[[c m] s'] |];
    [f_equal |]; apply IH.
Qed.

Lemma find_all_skip r x i s :
  find_all r (String.length x) i (x +:+ s)
  = find_all r 0 (i + String.length x) s.
Proof.
  revert i. induction x as [|a x IH]; intros i.
  - rewrite append_nil_l. simpl. by rewrite Nat.add_0_r.
  - rewrite append_cons. cbn [find_all String.length]. rewrite IH.
    f_equal. lia.
Qed.

Lemma match_at_rxCompilerVar_no_dollar i a s :
  Str.eqc "$" a = false → match_at rxCompilerVar i (String a s) = None.
Proof.
  unfold Str.eqc, match_at, rxCompilerVar. intros Ha. cbn [run]. by rewrite Ha.
Qed.

Lemma find_all_no_dollar l i s :
  Str.has (Str.eqc "$") l = false →
  find_all rxCompilerVar 0 i (l +:+ s) = find_all rxCompilerVar 0 0 s.
Proof.
  revert i. induction l as [|a l IH]; intros i Hl.
  - rewrite append_nil_l. apply find_all_rxCompilerVar_offset.
  - simpl in Hl. apply orb_false_iff in Hl as [Ha Hl].
    rewrite append_cons. cbn [find_all].
    rewrite match_at_rxCompilerVar_no_dollar by done. by apply IH.
Qed.

Lemma find_all_match r i a s c m s' :
  match_at r i (String a s) = Some (c, m, s') →
  find_all r 0 i (String a s) = m :: find_all r (String.length m - 1) (S i) s.
Proof. intros Hm. cbn [find_all]. by rewrite Hm. Qed.

End RxCompilerVar.

(** ** More on ParseSymbols, and what every step preserves *)

Section ParseMore.

Implicit Types (text K V : string) (lines : list string).

Lemma ParseSymbols_provenance lines K V :
  ParseSymbols lines !! K = Some V →
  ∃ text, text ∈ lines
          ∧ FindStringSubmatch rxMakefile text = [text; K; V]
          ∧ key_value text K V.
Proof.
  revert K V. induction lines as [|text lines IH] using rev_ind; intros K V.
  { unfold ParseSymbols. simpl. by rewrite lookup_empty. }
  rewrite ParseSymbols_snoc.
  assert (ParseSymbols lines !! K = Some V →
          ∃ text0, text0 ∈ lines ++ [text]
            ∧ FindStringSubmatch rxMakefile text0 = [text0; K; V]
            ∧ key_value text0 K V) as IH'.
  { intros (text0 & Hin & ?)%IH. exists text0. split; [| done].
    apply elem_of_app. by left. }
  destruct (FindStringSubmatch_rxMakefile text)
    as [Hnone | (K' & V' & Hsome & Hkv)].
  - by rewrite (scanLine_skip _ _ Hnone).
  - rewrite (scanLine_set _ _ _ _ _ Hsome).
    destruct (decide (K' = K)) as [-> | Hne].
    + rewrite lookup_insert_eq. intros [= <-]. exists text.
      split; [| done]. apply elem_of_app. right. left.
    + by rewrite lookup_insert_ne by done.
Qed.

End ParseMore.

Section Preserved.

Import Utf8.

Variable p : ascii → bool.

Implicit Types (s old new : string) (m : gmap string string).

Lemma all_drop n s : Str.all p s = true → Str.all p (drop n s) = true.
Proof.
  revert s. induction n as [|n IH]; intros [|a s]; simpl; try done.
  intros [_ Hs]%andb_true_iff. by apply IH.
Qed.

Lemma all_take n s : Str.all p s = true → Str.all p (take n s) = true.
Proof.
  revert s. induction n as [|n IH]; intros [|a s]; simpl; try done.
  intros [Ha Hs]%andb_true_iff. by rewrite Ha, IH.
Qed.

Lemma trim_left_all fuel s :
  Str.all p s = true → Str.all p (trim_left fuel s) = true.
Proof.
  revert s. induction fuel as [|fuel IH]; intros s Hs; [done |].
  cbn [trim_left]. destruct (DecodeRuneInString s) as [r size].
  destruct (_ && _); [| done]. by apply IH, all_drop.
Qed.

Lemma trim_right_all fuel s :
  Str.all p s = true → Str.all p (trim_right fuel s) = true.
Proof.
  revert s. induction fuel as [|fuel IH]; intros s Hs; [done |].
  cbn [trim_right]. destruct (DecodeLastRuneInString s) as [r size].
  destruct (_ && _); [| done]. by apply IH, all_take.
Qed.

Lemma TrimSpace_all s : Str.all p s = true → Str.all p (TrimSpace s) = true.
Proof. intros Hs. unfold TrimSpace. by apply trim_right_all, trim_left_all. Qed.

Lemma replace_preserves old new skip s :
  Str.all p s = true → Str.all p new = true →
  Str.all p (replace old new skip s) = true.
Proof.
  intros Hs Hnew. revert skip Hs. induction s as [|a s IH]; intros skip Hs; [done |].
  simpl in Hs. apply andb_true_iff in Hs as [Ha Hs]. cbn [replace].
  destruct skip as [|n]; [| by apply IH].
  destruct (String.prefix old (String a s)).
  - rewrite all_append, Hnew. by apply IH.
  - simpl. by rewrite Ha, IH.
Qed.

Lemma after_runes_preserves new k s :
  Str.all p s = true → Str.all p new = true →
  Str.all p (after_runes new k s) = true.
Proof.
  intros Hs Hnew. revert k Hs. induction s as [|a s IH]; intros k Hs; [done |].
  simpl in Hs. apply andb_true_iff in Hs as [Ha Hs]. cbn [after_runes].
  destruct (match k with 0 => _ | S n => n end).
  - simpl. by rewrite Ha, all_append, Hnew, IH.
  - simpl. by rewrite Ha, IH.
Qed.

Lemma Replace_preserves s old new :
  Str.all p s = true → Str.all p new = true →
  Str.all p (Replace s old new) = true.
Proof.
  intros Hs Hnew. unfold Replace. case_decide; [done |].
  destruct old.
  - rewrite all_append, Hnew. by apply after_runes_preserves.
  - by apply replace_preserves.
Qed.

Lemma mapIndex_all m key :
  map_Forall (λ _ v, Str.all p v = true) m → Str.all p (mapIndex m key) = true.
Proof.
  intros Hm. unfold mapIndex. destruct (m !! key) as [v |] eqn:Hv; [| done].
  by apply (Hm key v).
Qed.

Lemma substitute_all m v :
  map_Forall (λ _ v, Str.all p v = true) m →
  Str.all p v = true → Str.all p (substitute m v) = true.
Proof.
  intros Hm. unfold substitute.
  generalize (FindAllString rxCompilerVar v). intros l. revert v.
  induction l as [|variable l IH]; intros v Hv; [done |].
  simpl. apply IH. apply Replace_preserves; [done |]. by apply mapIndex_all.
Qed.

Lemma resolveValue_all m v :
  p " " = true →
  map_Forall (λ _ v, Str.all p v = true) m →
  Str.all p v = true → Str.all p (resolveValue m v) = true.
Proof.
  intros Hsp Hm Hv. unfold resolveValue, patch.
  apply TrimSpace_all, Replace_preserves; [by apply substitute_all |].
  simpl. by rewrite Hsp.
Qed.

Lemma resolveKey_all m key :
  p " " = true →
  map_Forall (λ _ v, Str.all p v = true) m →
  map_Forall (λ _ v, Str.all p v = true) (resolveKey m key).
Proof.
  intros Hsp Hm. unfold resolveKey. destruct (m !! key) as [v |] eqn:Hv; [| done].
  apply map_Forall_insert_2; [| done].
  apply resolveValue_all; [done | done |]. by apply (Hm key v).
Qed.

Lemma ResolveReferences_all order m :
  p " " = true →
  map_Forall (λ _ v, Str.all p v = true) m →
  map_Forall (λ _ v, Str.all p v = true) (ResolveReferences order m).
Proof.
  intros Hsp Hm. induction order as [|key order IH] using rev_ind; [done |].
  rewrite ResolveReferences_snoc. by apply resolveKey_all.
Qed.

End Preserved.

Section SevenLines.

Implicit Types (m : gmap string string) (order lines : list string).

Lemma all_dot_no_newline s :
  Str.all dot s = true → Str.has (Str.eqc "010") s = false.
Proof.
  apply all_has. intros a. unfold dot, Str.eqc. by intros ?%negb_true_iff.
Qed.

Lemma ParseSymbols_dot lines :
  map_Forall (λ _ v, Str.all dot v = true) (ParseSymbols lines).
Proof.
  intros K V (text & _ & _ & w1 & w2 & _ & _ & _ & _ & _ & _ & HV)%ParseSymbols_provenance.
  done.
Qed.

Lemma lines_RenderFlags m :
  (∀ key, Str.has (Str.eqc "010") (mapIndex m key) = false) →
  Str.lines (RenderFlags m)
  = [ "#cgo CFLAGS: " +:+ mapIndex m "CFLAGS";
      "#cgo CXXFLAGS: " +:+ mapIndex m "CXXFLAGS";
      "#cgo CXXFLAGS: " +:+ mapIndex m "INCPATH";
      "#cgo LDFLAGS: " +:+ mapIndex m "LFLAGS";
      "#cgo LDFLAGS: " +:+ mapIndex m "LIBS";
      "#cgo CFLAGS: -Wno-unused-parameter -Wno-unused-variable -Wno-return-type";
      "#cgo CXXFLAGS: -Wno-unused-parameter -Wno-unused-variable -Wno-return-type" ].
Proof.
  intros Hnl. unfold RenderFlags, directives. cbn [foldl].
  rewrite append_nil_l, !append_assoc.
  assert (∀ p v t,
            Str.has (Str.eqc "010") p = false →
            Str.has (Str.eqc "010") v = false →
            Str.lines (p +:+ v +:+ nl +:+ t) = (p +:+ v) :: Str.lines t) as Hline.
  { intros p v t Hp Hv. rewrite <-(append_assoc p v).
    apply lines_append. by rewrite has_append, Hp, Hv. }
  rewrite !Hline by (done || apply Hnl).
  rewrite lines_append by reflexivity. rewrite lines_one by reflexivity.
  reflexivity.
Qed.

Lemma cgoFlagsOf_lines order lines :
  let m := ResolveReferences order (ParseSymbols lines) in
  Str.lines (cgoFlagsOf order lines)
  = [ "#cgo CFLAGS: " +:+ mapIndex m "CFLAGS";
      "#cgo CXXFLAGS: " +:+ mapIndex m "CXXFLAGS";
      "#cgo CXXFLAGS: " +:+ mapIndex m "INCPATH";
      "#cgo LDFLAGS: " +:+ mapIndex m "LFLAGS";
      "#cgo LDFLAGS: " +:+ mapIndex m "LIBS";
      "#cgo CFLAGS: -Wno-unused-parameter -Wno-unused-variable -Wno-return-type";
      "#cgo CXXFLAGS: -Wno-unused-parameter -Wno-unused-variable -Wno-return-type" ].
Proof.
  intros m. unfold cgoFlagsOf. fold m. apply lines_RenderFlags.
  intros key. apply all_dot_no_newline, mapIndex_all.
  apply ResolveReferences_all; [done | apply ParseSymbols_dot].
Qed.

End SevenLines.

(** ** [strings.TrimSpace] *)

Section TrimFacts.

Import Utf8.

Implicit Types (s x : string) (fuel n : nat).

Lemma length_drop n s : String.length (drop n s) = String.length s - n.
Proof. revert s. induction n as [|n IH]; intros [|a s]; simpl; auto with lia. Qed.

Lemma length_take n s : String.length (take n s) = n `min` String.length s.
Proof. revert s. induction n as [|n IH]; intros [|a s]; simpl; auto with lia. Qed.

Lemma take_drop n s : take n s +:+ drop n s = s.
Proof.
  revert s. induction n as [|n IH]; intros [|a s]; simpl; try done.
  by rewrite append_cons, IH.
Qed.

Lemma trim_left_stops fuel s :
  String.length s ≤ fuel → leading_space (trim_left fuel s) = false.
Proof.
  revert s. induction fuel as [|fuel IH]; intros s Hlen.
  { destruct s; [done | simpl in Hlen; lia]. }
  cbn [trim_left]. destruct (DecodeRuneInString s) as [r size] eqn:Hdec.
  destruct ((0 <? size) && IsSpace r) eqn:Hcond.
  - apply IH. rewrite length_drop.
    apply andb_true_iff in Hcond as [Hsize%Nat.ltb_lt _]. lia.
  - unfold leading_space. by rewrite Hdec.
Qed.

Lemma trim_right_stops fuel s :
  String.length s ≤ fuel → trailing_space (trim_right fuel s) = false.
Proof.
  revert s. induction fuel as [|fuel IH]; intros s Hlen.
  { destruct s; [done | simpl in Hlen; lia]. }
  cbn [trim_right]. destruct (DecodeLastRuneInString s) as [r size] eqn:Hdec.
  destruct ((0 <? size) && IsSpace r) eqn:Hcond.
  - apply IH. rewrite length_take.
    apply andb_true_iff in Hcond as [Hsize%Nat.ltb_lt _]. lia.
  - unfold trailing_space. by rewrite Hdec.
Qed.

Lemma trim_right_prefix fuel s : ∃ x, s = trim_right fuel s +:+ x.
Proof.
  revert s. induction fuel as [|fuel IH]; intros s.
  { exists "". by rewrite append_nil_r. }
  cbn [trim_right]. destruct (DecodeLastRuneInString s) as [r size].
  destruct ((0 <? size) && IsSpace r).
  - destruct (IH (take (String.length s - size) s)) as [x Hx].
    exists (x +:+ drop (String.length s - size) s).
    rewrite <-append_assoc, <-Hx. by rewrite take_drop.
  - exists "". by rewrite append_nil_r.
Qed.

Lemma trim_left_suffix fuel s : ∃ x, s = x +:+ trim_left fuel s.
Proof.
  revert s. induction fuel as [|fuel IH]; intros s.
  { by exists "". }
  cbn [trim_left]. destruct (DecodeRuneInString s) as [r size].
  destruct ((0 <? size) && IsSpace r).
  - destruct (IH (drop size s)) as [x Hx].
    exists (take size s +:+ x).
    rewrite append_assoc, <-Hx. by rewrite take_drop.
  - by exists "".
Qed.

Lemma trim_left_fix fuel s : leading_space s = false → trim_left fuel s = s.
Proof.
  unfold leading_space. destruct fuel as [|fuel]; [done |]. cbn [trim_left].
  destruct (DecodeRuneInString s) as [r size]. by intros ->.
Qed.

Lemma trim_right_fix fuel s : trailing_space s = false → trim_right fuel s = s.
Proof.
  unfold trailing_space. destruct fuel as [|fuel]; [done |]. cbn [trim_right].
  destruct (DecodeLastRuneInString s) as [r size]. by intros ->.
Qed.

Lemma IsSpace_RuneError : IsSpace RuneError = false.
Proof. reflexivity. Qed.

(** A white-space rune at the front of [s] is still there when text is
    appended: its encoding is complete. *)
Lemma leading_space_append s x :
  leading_space s = true → leading_space (s +:+ x) = true.
Proof.
  unfold leading_space.
  destruct s as [|a0 [|a1 [|a2 [|a3 s]]]];
    rewrite ?append_cons, ?append_nil_l; unfold DecodeRuneInString;
    repeat case_match; simplify_eq; rewrite ?IsSpace_RuneError, ?andb_false_r;
    done.
Qed.

Lemma TrimSpace_ends s :
  leading_space (TrimSpace s) = false ∧ trailing_space (TrimSpace s) = false.
Proof.
  unfold TrimSpace. set (l := trim_left (String.length s) s).
  assert (leading_space l = false) as Hl by (by apply trim_left_stops).
  split; [| by apply trim_right_stops].
  destruct (leading_space (trim_right (String.length l) l)) eqn:HT; [| done].
  destruct (trim_right_prefix (String.length l) l) as [x Hx].
  apply (leading_space_append _ x) in HT. rewrite <-Hx in HT. congruence.
Qed.

Lemma TrimSpace_fix s :
  leading_space s = false → trailing_space s = false → TrimSpace s = s.
Proof.
  intros Hl Ht. unfold TrimSpace. rewrite (trim_left_fix _ _ Hl).
  by apply trim_right_fix.
Qed.

Lemma TrimSpace_substring s : ∃ l r, s = l +:+ TrimSpace s +:+ r.
Proof.
  unfold TrimSpace.
  destruct (trim_left_suffix (String.length s) s) as [l Hl].
  destruct (trim_right_prefix (String.length (trim_left (String.length s) s))
              (trim_left (String.length s) s)) as [r Hr].
  exists l, r. by rewrite <-Hr.
Qed.

Lemma asciiSpace_IsSpace a :
  asciiSpace a = true → (byte a <? 128)%N = true ∧ IsSpace (byte a) = true.
Proof.
  destruct a as [[|] [|] [|] [|] [|] [|] [|] [|]]; intros H; vm_compute in H;
    try discriminate H; by vm_compute.
Qed.

Lemma leading_space_ascii s :
  leading_space s = false → Str.starts asciiSpace s = false.
Proof.
  destruct s as [|a s]; [done |]. simpl.
  destruct (asciiSpace a) eqn:Ha; [| done].
  apply asciiSpace_IsSpace in Ha as [Hlow Hsp].
  unfold leading_space, DecodeRuneInString. by rewrite Hlow, Hsp.
Qed.

Lemma ends_get p s :
  Str.ends p s = true →
  ∃ a, String.get (String.length s - 1) s = Some a ∧ p a = true.
Proof.
  induction s as [|a s IH]; [done |]. destruct s as [|b s].
  - simpl. intros Ha. by exists a.
  - intros Hs. destruct (IH Hs) as (c & Hget & Hc). exists c. split; [| done].
    revert Hget. cbn [String.length]. rewrite !Nat.sub_succ, !Nat.sub_0_r.
    by destruct (String.length s).
Qed.

Lemma trailing_space_ascii s :
  trailing_space s = false → Str.ends asciiSpace s = false.
Proof.
  intros Ht. destruct (Str.ends asciiSpace s) eqn:He; [| done].
  apply ends_get in He as (a & Hget & [Hlow Hsp]%asciiSpace_IsSpace).
  revert Ht. unfold trailing_space, DecodeLastRuneInString.
  by rewrite Hget, Hlow, Hsp.
Qed.

End TrimFacts.

(** ** The lines of the generated file, and keys that resolve alike in every order *)

Section Lines.

Implicit Types (s t : string).

Lemma lines_nonempty s : Str.lines s ≠ [].
Proof.
  induction s as [|a s IH]; [done |]. simpl.
  destruct (Ascii.eqb a "010"); [done |]. by destruct (Str.lines s).
Qed.

Lemma lines_app s t : Str.lines (s +:+ nl +:+ t) = Str.lines s ++ Str.lines t.
Proof.
  induction s as [|a s IH]; [done |]. rewrite append_cons. simpl.
  destruct (Ascii.eqb a "010"); [by rewrite IH |]. rewrite IH.
  pose proof (lines_nonempty s). by destruct (Str.lines s).
Qed.

Lemma fileContent_text pkgName cgoFlags :
  fileContent pkgName cgoFlags
  = ("package " +:+ pkgName) +:+ nl +:+ "" +:+ nl +:+ "/*" +:+ nl
      +:+ cgoFlags +:+ nl +:+ "*/" +:+ nl +:+ importC +:+ nl +:+ "".
Proof.
  unfold fileContent, Sprintln. cbn [foldl spaced].
  by rewrite !append_assoc, !append_nil_l, append_nil_r.
Qed.

Lemma fileContent_lines pkgName cgoFlags :
  Str.has (Str.eqc "010") pkgName = false →
  Str.lines (fileContent pkgName cgoFlags)
  = ["package " +:+ pkgName; ""; "/*"]
      ++ Str.lines cgoFlags ++ ["*/"; importC; ""].
Proof.
  intros Hpkg. rewrite fileContent_text, !lines_app.
  rewrite (lines_one ("package " +:+ pkgName))
    by (by rewrite has_append, Hpkg).
  done.
Qed.

End Lines.

Section Local.

Implicit Types (m : gmap string string) (order l : list string) (k key v : string).

Lemma ResolveReferences_None l m k :
  m !! k = None → ResolveReferences l m !! k = None.
Proof.
  intros Hk. apply not_elem_of_dom. rewrite ResolveReferences_dom.
  by apply not_elem_of_dom.
Qed.

Lemma ResolveReferences_inert l m k v :
  m !! k = Some v → inert v → ResolveReferences l m !! k = Some v.
Proof.
  intros Hk Hv. induction l as [|x l IH] using rev_ind; [done |].
  rewrite ResolveReferences_snoc. destruct (decide (x = k)) as [-> | Hne].
  - rewrite (resolveKey_lookup _ _ _ IH). by rewrite resolveValue_inert.
  - by rewrite resolveKey_lookup_ne.
Qed.

Lemma ResolveReferences_local m order key v :
  key_order m order → m !! key = Some v →
  Forall (λ k, from_option inert True (m !! k)) (references v) →
  ResolveReferences order m !! key = Some (resolveValue m v).
Proof.
  intros Ho Hkey Hrefs.
  destruct (ResolveReferences_lookup m order key v Ho Hkey)
    as (l1 & l2 & _ & ->).
  f_equal. unfold resolveValue. f_equal. apply substitute_agree.
  intros k Hk. rewrite Forall_forall in Hrefs. specialize (Hrefs k Hk).
  unfold mapIndex. destruct (m !! k) as [v' |] eqn:Hv'.
  - by rewrite (ResolveReferences_inert l1 m k v' Hv' Hrefs).
  - by rewrite ResolveReferences_None.
Qed.

Lemma ResolveReferences_trimmed m order key v :
  key_order m order → ResolveReferences order m !! key = Some v →
  ∃ u, v = TrimSpace u.
Proof.
  intros Ho Hv.
  assert (is_Some (m !! key)) as [v0 Hv0].
  { apply elem_of_dom. rewrite <-(ResolveReferences_dom order).
    apply elem_of_dom. by eexists. }
  destruct (ResolveReferences_lookup m order key v0 Ho Hv0)
    as (l1 & l2 & _ & Hres).
  rewrite Hv in Hres. injection Hres as ->. unfold resolveValue, patch.
  by eexists.
Qed.

End Local.

(** ** A value without the big-obj flag *)

Lemma replace_none old new l tail :
  no_occurrence old l tail = true →
  replace old new 0 (l +:+ tail) = l +:+ replace old new 0 tail.
Proof.
  induction l as [|a l IH]; [done |]. cbn [no_occurrence].
  intros [Hno Hl]%andb_true_iff. apply negb_true_iff in Hno.
  rewrite !append_cons in *. cbn [replace]. rewrite Hno. f_equal. by apply IH.
Qed.

Lemma patch_none v : no_occurrence bigObj v "" = true → patch v = TrimSpace v.
Proof.
  intros Hv. unfold patch. f_equal. unfold Replace, bigObj in *.
  rewrite decide_False by done.
  rewrite <-(append_nil_r v) at 1. rewrite (replace_none _ _ _ _ Hv).
  apply append_nil_r.
Qed.

(** ** The calls of the two functions *)

Section CallFacts.

Implicit Types (w : World) (profile : Profile) (dstDir pkgName flags : string).

Lemma createCgoFlags_Ok w profile dstDir flags :
  (createCgoFlags w profile dstDir).2 = Os.Ok flags ↔
  createPro w = None ∧ writePro w = None ∧ (qmakeOutput w).2 = None
  ∧ openMake w = None ∧ (scanned w).2 = None
  ∧ flags = cgoFlagsOf (rangeOrder w) (scanned w).1.
Proof.
  unfold createCgoFlags, cgoFlagsOf.
  destruct (createPro w); [cbn; split; [done | by intros (? & _)] |].
  destruct (writePro w); [cbn; split; [done | by intros (_ & ? & _)] |].
  destruct (qmakeOutput w) as [out [e |]];
    [cbn; split; [done | by intros (_ & _ & ? & _)] |].
  destruct (openMake w); [cbn; split; [done | by intros (_ & _ & _ & ? & _)] |].
  destruct (scanned w) as [lines [e |]];
    [cbn; split; [done | by intros (_ & _ & _ & _ & ? & _)] |].
  destruct (debugDirEmpty w), (releaseDirEmpty w); cbn;
    (split; [by intros [= <-] | by intros (_ & _ & _ & _ & _ & ->)]).
Qed.

(** The calls of a run that succeeds. *)
Lemma createCgoFlags_Ok_calls w profile dstDir flags :
  (createCgoFlags w profile dstDir).2 = Os.Ok flags →
  let pro := proFilePath (Join w) dstDir in
  let make := makeFilePath (Join w) dstDir in
  (createCgoFlags w profile dstDir).1
  = [ Os.Create pro;
      Os.WriteString pro (proContent profile);
      Os.Sync pro;
      Os.Command (Qmake profile)
        ["-o"; make; "-spec"; qmakeSpec profile; pro] dstDir
        (Environ w ++ ["PATH=" +:+ envPath w profile]);
      Os.Open (qmakeResultPath (OS profile) make) ]
      ++ (Os.Remove <$> removedFiles (Join w) dstDir)
      ++ (if debugDirEmpty w then [Os.RemoveAll (Join w dstDir "debug")]
          else [])
      ++ (if releaseDirEmpty w then [Os.RemoveAll (Join w dstDir "release")]
          else [])
      ++ [ Os.Close (qmakeResultPath (OS profile) make); Os.Close pro ].
Proof.
  intros (Hpro & Hwrite & Hqmake & Hopen & Hscan & _)%createCgoFlags_Ok.
  unfold createCgoFlags. rewrite Hpro, Hwrite, Hopen.
  destruct (qmakeOutput w) as [out e]. simpl in Hqmake. subst e.
  destruct (scanned w) as [lines e]. simpl in Hscan. subst e.
  by destruct (debugDirEmpty w), (releaseDirEmpty w).
Qed.

Lemma createCgoFlags_Err_no_removal w profile dstDir err :
  (createCgoFlags w profile dstDir).2 = Os.Err err →
  Forall (λ c, removal c = false) (createCgoFlags w profile dstDir).1.
Proof.
  unfold createCgoFlags.
  destruct (createPro w); [intros _; cbn; by repeat constructor |].
  destruct (writePro w); [intros _; cbn; by repeat constructor |].
  destruct (qmakeOutput w) as [out [e |]];
    [intros _; cbn; by repeat constructor |].
  destruct (openMake w); [intros _; cbn; by repeat constructor |].
  destruct (scanned w) as [lines [e |]];
    [intros _; cbn; by repeat constructor |].
  by destruct (debugDirEmpty w), (releaseDirEmpty w).
Qed.

Lemma createCgoFlags_closes w profile dstDir :
  createPro w = None →
  last (createCgoFlags w profile dstDir).1
  = Some (Os.Close (proFilePath (Join w) dstDir)).
Proof.
  intros Hpro. unfold createCgoFlags. rewrite Hpro.
  destruct (writePro w); [done |].
  destruct (qmakeOutput w) as [out [e |]]; [done |].
  destruct (openMake w); [done |].
  destruct (scanned w) as [lines [e |]]; [done |].
  by destruct (debugDirEmpty w), (releaseDirEmpty w).
Qed.

End CallFacts.

(** Every occurrence of the flag is handled in turn: the first one is
    replaced by one space and the search goes on behind it. *)
Lemma Replace_bigObj_step l r :
  no_occurrence bigObj l (bigObj +:+ r) = true →
  Replace (l +:+ bigObj +:+ r) bigObj " " = l +:+ " " +:+ Replace r bigObj " ".
Proof.
  assert (∃ a old, bigObj = String a old ∧ bigObj ≠ " ")
    as (a & old & Hbig & Hne) by (by eexists _, _).
  intros Hl. rewrite Hbig in *. rewrite !Replace_cons by done.
  by rewrite replace_first.
Qed.

(** * The claims *)

(** C8. ParseSymbols is total and tolerant: the empty sequence gives
    the empty table; every line is either not matched by the pattern, and
    then it is skipped without changing the table, or matched as the line,
    a key and a value, and then the key is set to the value, overwriting
    what was there; ["not a kv line"; "A = 1"] gives exactly {A: "1"}. *)
Theorem C8_parse_total_tolerant :
  ParseSymbols [] = ∅
  ∧ (∀ text,
       FindStringSubmatch rxMakefile text = []
       ∨ ∃ K V, FindStringSubmatch rxMakefile text = [text; K; V])
  ∧ (∀ lines text,
       FindStringSubmatch rxMakefile text = [] →
       ParseSymbols (lines ++ [text]) = ParseSymbols lines)
  ∧ (∀ lines text whole K V,
       FindStringSubmatch rxMakefile text = [whole; K; V] →
       ParseSymbols (lines ++ [text]) = <[K := V]> (ParseSymbols lines))
  ∧ ParseSymbols ["not a kv line"; "A = 1"] = {[ "A" := "1" ]}.
Proof.
  split; [done |]. split.
  { intros text. destruct (FindStringSubmatch_rxMakefile text)
      as [? | (K & V & ? & _)]; [by left | right; by exists K, V]. }
  split.
  { intros lines text Hnone. rewrite ParseSymbols_snoc. by apply scanLine_skip. }
  split.
  { intros lines text whole K V Hsome. rewrite ParseSymbols_snoc.
    by eapply scanLine_set. }
  vm_compute. reflexivity.
Qed.

Lemma C8_parse_total_tolerant_witness :
  ParseSymbols (["A = 1"] ++ ["not a kv line"]) = ParseSymbols ["A = 1"]
  ∧ ParseSymbols (["A = 1"] ++ ["A = 2"]) = <["A" := "2"]> (ParseSymbols ["A = 1"]).
Proof.
  split.
  - apply (proj1 (proj2 (proj2 C8_parse_total_tolerant))). reflexivity.
  - apply (proj1 (proj2 (proj2 (proj2 C8_parse_total_tolerant))) _ _ "A = 2").
    reflexivity.
Defined.

(** C10. Parsing never binds a key to the empty string, and a line whose
    only equals sign is its last character adds no entry: the table is
    what it was before the line. *)
Theorem C10_no_empty_value :
  (∀ lines K V, ParseSymbols lines !! K = Some V → V ≠ "")
  ∧ (∀ lines pre,
       Str.has (Str.eqc "=") pre = false →
       FindStringSubmatch rxMakefile (pre +:+ "=") = []
       ∧ ParseSymbols (lines ++ [pre +:+ "="]) = ParseSymbols lines).
Proof.
  split; [apply ParseSymbols_value_nonempty |].
  intros lines pre Hpre.
  pose proof (FindStringSubmatch_trailing_eq pre Hpre) as Hnone.
  split; [done |]. rewrite ParseSymbols_snoc. by apply scanLine_skip.
Qed.

Lemma C10_no_empty_value_witness :
  "1" ≠ ""
  ∧ ParseSymbols ([] ++ ["A " +:+ "="]) = ParseSymbols []
  ∧ ParseSymbols (["B = 2"] ++ ["A" +:+ "="]) = ParseSymbols ["B = 2"].
Proof.
  split; [| split].
  - apply (proj1 C10_no_empty_value ["A = 1"] "A" "1"). reflexivity.
  - apply (proj2 C10_no_empty_value [] "A "). reflexivity.
  - apply (proj2 C10_no_empty_value ["B = 2"] "A"). reflexivity.
Defined.

(** C3, as the code has it. A line made of a key (non-empty, without
    white space), white space, an equals sign, white space and a value
    (starting with a character that is not white space, without newline)
    binds the key to the value, provided there is white space before the
    equals sign or no equals sign in the value. The value keeps the white
    space it ends with; a line that starts with white space is skipped. *)
Theorem C3_parse_key_value :
  (∀ lines K w1 w2 V,
     K ≠ "" → Str.all nonspace K = true →
     Str.all space w1 = true → Str.all space w2 = true →
     Str.starts nonspace V = true → Str.all dot V = true →
     (w1 ≠ "" ∨ Str.has (Str.eqc "=") V = false) →
     ParseSymbols (lines ++ [K +:+ w1 +:+ "=" +:+ w2 +:+ V])
     = <[K := V]> (ParseSymbols lines))
  ∧ (∀ lines text,
       Str.starts space text = true →
       ParseSymbols (lines ++ [text]) = ParseSymbols lines).
Proof.
  split.
  - intros lines K w1 w2 V HK HKns Hw1 Hw2 HV Hdot Heq.
    rewrite ParseSymbols_snoc. eapply scanLine_set.
    by apply FindStringSubmatch_rxMakefile_first.
  - intros lines text Htext. rewrite ParseSymbols_snoc. apply scanLine_skip.
    destruct (FindStringSubmatch_rxMakefile text)
      as [Hnone | (K & V & _ & HKV)]; [done |].
    apply key_value_starts in HKV. congruence.
Qed.

Lemma C3_parse_key_value_witness :
  ParseSymbols ([] ++ ["A" +:+ "  " +:+ "=" +:+ " " +:+ "1  "])
  = <["A" := "1  "]> (ParseSymbols [])
  ∧ ParseSymbols ([] ++ [" A = 1"]) = ParseSymbols [].
Proof.
  split.
  - apply (proj1 C3_parse_key_value [] "A" "  " " " "1  ");
      [discriminate | reflexivity | reflexivity | reflexivity | reflexivity
      | reflexivity | left; discriminate].
  - apply (proj2 C3_parse_key_value [] " A = 1"). reflexivity.
Defined.

(** C3 as stated fails: the value of ["A = 1 "] keeps its trailing space,
    and the line [" A = 1"] gives no entry at all. *)
Lemma C3_value_not_trimmed :
  ParseSymbols ["A = 1 "] !! "A" = Some "1 "
  ∧ TrimSpace "1 " ≠ "1 "
  ∧ ParseSymbols [" A = 1"] !! "A" = None.
Proof. split; [| split]; vm_compute; congruence. Qed.

(** C9. ResolveReferences keeps the keys of the table: whatever the
    order of the visit, the resolved table has the keys of the table it
    started from. *)
Theorem C9_resolve_preserves_keys (order : list string) (m : gmap string string) :
  dom (ResolveReferences order m) = dom m
  ∧ ∀ key, is_Some (ResolveReferences order m !! key) ↔ is_Some (m !! key).
Proof.
  pose proof (ResolveReferences_dom order m) as Hdom. split; [done |].
  intros key. by rewrite <-!elem_of_dom, Hdom.
Qed.

(** C7. ResolveReferences always returns a table, computed with exactly
    one substitution pass per key: the value stored for a key is the
    resolution of the value parsed for it against the table as the earlier
    iterations left it. A key that refers to itself keeps its placeholder,
    and a cycle of two keys ends with the placeholder of the key visited
    last in both entries. *)
Theorem C7_resolve_one_pass :
  (∀ m order key v,
     key_order m order → m !! key = Some v →
     ∃ l1 l2,
       order = l1 ++ key :: l2
       ∧ ResolveReferences order m !! key
         = Some (resolveValue (ResolveReferences l1 m) v))
  ∧ (∀ order,
       key_order selfRef order →
       ResolveReferences order selfRef = {[ "A" := "$(A)" ]})
  ∧ (∀ order,
       key_order cycle order →
       ResolveReferences order cycle
       = (if precedes "A" "B" order
          then {[ "A" := "$(A)"; "B" := "$(A)" ]}
          else {[ "A" := "$(B)"; "B" := "$(B)" ]})).
Proof.
  split; [apply ResolveReferences_lookup |]. split.
  - intros order Ho. by_orders Ho. vm_compute. reflexivity.
  - intros order Ho. by_orders Ho; vm_compute; reflexivity.
Qed.

Lemma C7_resolve_one_pass_witness :
  ResolveReferences ["A"] selfRef = {[ "A" := "$(A)" ]}
  ∧ ResolveReferences ["B"; "A"] cycle = {[ "A" := "$(B)"; "B" := "$(B)" ]}.
Proof.
  split.
  - apply (proj1 (proj2 C7_resolve_one_pass) ["A"]). compute_done.
  - apply (proj2 (proj2 C7_resolve_one_pass) ["B"; "A"]). compute_done.
Defined.

(** C1, as the code has it. In the table {A: "$(B)", B: "$(C)", C: "x"}
    the value resolved for A depends on the order of the visit, which Go
    leaves open: it is "$(C)" when A is visited before B, and "x" when B,
    already resolved, is visited before A. The placeholder is replaced by
    the value stored for the key at that moment, and what is put in is
    not scanned for placeholders again. *)
Theorem C1_chain_single_pass (order : list string) :
  key_order chain order →
  ResolveReferences order chain !! "A"
  = Some (if precedes "A" "B" order then "$(C)" else "x").
Proof. intros Ho. by_orders Ho; vm_compute; reflexivity. Qed.

Lemma C1_chain_single_pass_witness :
  ResolveReferences ["A"; "B"; "C"] chain !! "A" = Some "$(C)".
Proof. apply (C1_chain_single_pass ["A"; "B"; "C"]). compute_done. Defined.

(** C1 as stated fails: visiting B before A is an order of the keys of
    the table, and it resolves A to "x". *)
Lemma C1_chain_resolved_when_B_first :
  key_order chain ["B"; "A"; "C"]
  ∧ ResolveReferences ["B"; "A"; "C"] chain !! "A" = Some "x"
  ∧ ResolveReferences ["B"; "A"; "C"] chain !! "A" ≠ Some "$(C)".
Proof. split; [compute_done |]. split; vm_compute; congruence. Qed.

(** C2, as the code has it. When every key that a value refers to is
    missing or bound to a value that resolution leaves as it is, the
    resolved table and the flag text are the same for every order of the
    visit. *)
Theorem C2_settled_deterministic (lines order1 order2 : list string) :
  settled (ParseSymbols lines) →
  key_order (ParseSymbols lines) order1 →
  key_order (ParseSymbols lines) order2 →
  ResolveReferences order1 (ParseSymbols lines)
  = ResolveReferences order2 (ParseSymbols lines)
  ∧ cgoFlagsOf order1 lines = cgoFlagsOf order2 lines.
Proof.
  intros Hm Ho1 Ho2. unfold cgoFlagsOf.
  by rewrite !(settled_ResolveReferences _ _ Hm) by done.
Qed.

Lemma C2_settled_deterministic_witness :
  cgoFlagsOf ["CFLAGS"; "CXXFLAGS"; "INCPATH"; "LFLAGS"; "LIBS"] endToEnd
  = cgoFlagsOf ["LIBS"; "LFLAGS"; "INCPATH"; "CXXFLAGS"; "CFLAGS"] endToEnd.
Proof.
  apply (C2_settled_deterministic endToEnd
           ["CFLAGS"; "CXXFLAGS"; "INCPATH"; "LFLAGS"; "LIBS"]
           ["LIBS"; "LFLAGS"; "INCPATH"; "CXXFLAGS"; "CFLAGS"]);
    compute_done.
Defined.

(** C2 as stated fails: for the lines CFLAGS = $(A), A = $(B), B = x two
    orders of the same keys give two different flag texts. *)
Lemma C2_output_depends_on_order :
  key_order (ParseSymbols chainLines) ["CFLAGS"; "A"; "B"]
  ∧ key_order (ParseSymbols chainLines) ["A"; "CFLAGS"; "B"]
  ∧ mapIndex (ResolveReferences ["CFLAGS"; "A"; "B"] (ParseSymbols chainLines))
      "CFLAGS" = "$(B)"
  ∧ mapIndex (ResolveReferences ["A"; "CFLAGS"; "B"] (ParseSymbols chainLines))
      "CFLAGS" = "x"
  ∧ cgoFlagsOf ["CFLAGS"; "A"; "B"] chainLines
    ≠ cgoFlagsOf ["A"; "CFLAGS"; "B"] chainLines.
Proof.
  split; [compute_done |]. split; [compute_done |].
  split; [vm_compute; reflexivity |]. split; [vm_compute; reflexivity |].
  vm_compute. congruence.
Qed.

(** C4. The big-obj patch works on the value after substitution: the
    value stored for a key is the text that the substitution of its
    placeholders gives, against the table as the earlier iterations left
    it, with the first occurrence of the flag between two spaces replaced
    by one space, the rest patched in the same way, and the ends trimmed.
    When the flag occurs once, between [l] and [r], the value is [l], one
    space and [r], trimmed: the flag goes and its neighbours stay apart.
    "-O2 -Wa,-mbig-obj -Wall" resolves to "-O2 -Wall"; the same holds when
    the value also holds a placeholder and white space at its end, and
    when the flag is brought in by the substitution; white space inside
    the value is left alone. *)
Theorem C4_big_obj_removed :
  (∀ (m : gmap string string) order l1 key l2 v l r,
     key_order m order → order = l1 ++ key :: l2 →
     m !! key = Some v →
     substitute (ResolveReferences l1 m) v = l +:+ bigObj +:+ r →
     no_occurrence bigObj l (bigObj +:+ r) = true →
     ResolveReferences order m !! key
     = Some (TrimSpace (l +:+ " " +:+ Replace r bigObj " ")))
  ∧ (∀ (m : gmap string string) order key v l r,
       key_order m order →
       m !! key = Some v →
       Forall (λ k, from_option inert True (m !! k)) (references v) →
       substitute m v = l +:+ bigObj +:+ r →
       no_occurrence bigObj l (bigObj +:+ r) = true →
       Replace r bigObj " " = r →
       ResolveReferences order m !! key = Some (TrimSpace (l +:+ " " +:+ r)))
  ∧ (∀ (m : gmap string string) order key l r,
       key_order m order →
       m !! key = Some (l +:+ bigObj +:+ r) →
       FindAllString rxCompilerVar (l +:+ bigObj +:+ r) = [] →
       no_occurrence bigObj l (bigObj +:+ r) = true →
       Replace r bigObj " " = r →
       ResolveReferences order m !! key = Some (TrimSpace (l +:+ " " +:+ r)))
  ∧ (∀ (m : gmap string string) order key,
       key_order m order →
       m !! key = Some "-O2 -Wa,-mbig-obj -Wall" →
       ResolveReferences order m !! key = Some "-O2 -Wall")
  ∧ (∀ (m : gmap string string) order,
       key_order m order →
       m !! "CFLAGS" = Some "-pipe -Wa,-mbig-obj -O2 $(DEFINES) " →
       m !! "DEFINES" = Some "-DQT_CORE_LIB" →
       ResolveReferences order m !! "CFLAGS" = Some "-pipe -O2 -DQT_CORE_LIB")
  ∧ (∀ (m : gmap string string) order,
       key_order m order →
       m !! "CFLAGS" = Some "-O2 $(X) -Wall" →
       m !! "X" = Some "-Wa,-mbig-obj" →
       ResolveReferences order m !! "CFLAGS" = Some "-O2 -Wall")
  ∧ (∀ (m : gmap string string) order key,
       key_order m order →
       m !! key = Some " -O2   -Wa,-mbig-obj   -Wall  " →
       ResolveReferences order m !! key = Some "-O2     -Wall").
Proof.
  assert (∀ (m : gmap string string) order l1 key l2 v l r,
            key_order m order → order = l1 ++ key :: l2 →
            m !! key = Some v →
            substitute (ResolveReferences l1 m) v = l +:+ bigObj +:+ r →
            no_occurrence bigObj l (bigObj +:+ r) = true →
            ResolveReferences order m !! key
            = Some (TrimSpace (l +:+ " " +:+ Replace r bigObj " "))) as Hstep.
  { intros m order l1 key l2 v l r Ho -> Hkey Hsub Hl.
    rewrite (ResolveReferences_one_pass l1 key l2 m v)
      by (done || by eapply key_order_NoDup).
    unfold resolveValue, patch. by rewrite Hsub, Replace_bigObj_step. }
  assert (∀ (m : gmap string string) order key v l r,
            key_order m order →
            m !! key = Some v →
            Forall (λ k, from_option inert True (m !! k)) (references v) →
            substitute m v = l +:+ bigObj +:+ r →
            no_occurrence bigObj l (bigObj +:+ r) = true →
            Replace r bigObj " " = r →
            ResolveReferences order m !! key
            = Some (TrimSpace (l +:+ " " +:+ r))) as Hlocal.
  { intros m order key v l r Ho Hkey Hrefs Hsub Hl Hr.
    rewrite (ResolveReferences_local m order key v Ho Hkey Hrefs).
    unfold resolveValue, patch. by rewrite Hsub, Replace_bigObj_step, Hr. }
  assert (∀ (m : gmap string string) order key l r,
            key_order m order →
            m !! key = Some (l +:+ bigObj +:+ r) →
            FindAllString rxCompilerVar (l +:+ bigObj +:+ r) = [] →
            no_occurrence bigObj l (bigObj +:+ r) = true →
            Replace r bigObj " " = r →
            ResolveReferences order m !! key
            = Some (TrimSpace (l +:+ " " +:+ r))) as Hgen.
  { intros m order key l r Ho Hkey Hnone Hl Hr.
    apply (Hlocal m order key _ l r Ho Hkey); [| | done | done].
    - unfold references. rewrite Hnone. constructor.
    - unfold substitute. by rewrite Hnone. }
  split; [exact Hstep |]. split; [exact Hlocal |]. split; [exact Hgen |].
  split.
  { intros m order key Ho Hkey.
    apply (Hgen m order key "-O2" "-Wall" Ho Hkey); reflexivity. }
  split.
  { intros m order Ho Hkey Hdef.
    apply (Hlocal m order "CFLAGS" _ "-pipe" "-O2 -DQT_CORE_LIB " Ho Hkey).
    - change (references "-pipe -Wa,-mbig-obj -O2 $(DEFINES) ")
        with ["DEFINES"].
      constructor; [| constructor]. rewrite Hdef. by split.
    - unfold substitute.
      change (FindAllString rxCompilerVar "-pipe -Wa,-mbig-obj -O2 $(DEFINES) ")
        with ["$(DEFINES)"].
      cbn [foldl].
      change (ReplaceAllString_1 rxCompilerVar "$(DEFINES)") with "DEFINES".
      assert (mapIndex m "DEFINES" = "-DQT_CORE_LIB") as ->
        by (unfold mapIndex; by rewrite Hdef).
      reflexivity.
    - reflexivity.
    - reflexivity. }
  split.
  { intros m order Ho Hkey HX.
    apply (Hlocal m order "CFLAGS" _ "-O2" "-Wall" Ho Hkey).
    - change (references "-O2 $(X) -Wall") with ["X"].
      constructor; [| constructor]. rewrite HX. by split.
    - unfold substitute.
      change (FindAllString rxCompilerVar "-O2 $(X) -Wall") with ["$(X)"].
      cbn [foldl].
      change (ReplaceAllString_1 rxCompilerVar "$(X)") with "X".
      assert (mapIndex m "X" = "-Wa,-mbig-obj") as ->
        by (unfold mapIndex; by rewrite HX).
      reflexivity.
    - reflexivity.
    - reflexivity. }
  intros m order key Ho Hkey.
  apply (Hgen m order key " -O2  " "  -Wall  " Ho Hkey); reflexivity.
Qed.

Lemma C4_big_obj_removed_witness :
  ResolveReferences ["CFLAGS"] {[ "CFLAGS" := "-O2 -Wa,-mbig-obj -Wall" ]}
    !! "CFLAGS" = Some "-O2 -Wall"
  ∧ ResolveReferences ["CFLAGS"; "DEFINES"]
      {[ "CFLAGS" := "-pipe -Wa,-mbig-obj -O2 $(DEFINES) ";
         "DEFINES" := "-DQT_CORE_LIB" ]} !! "CFLAGS"
    = Some "-pipe -O2 -DQT_CORE_LIB"
  ∧ ResolveReferences ["X"; "CFLAGS"]
      {[ "CFLAGS" := "-O2 $(X) -Wall"; "X" := "-Wa,-mbig-obj" ]} !! "CFLAGS"
    = Some "-O2 -Wall".
Proof.
  split; [| split].
  - apply (proj1 (proj2 (proj2 (proj2 C4_big_obj_removed)))
             {[ "CFLAGS" := "-O2 -Wa,-mbig-obj -Wall" ]} ["CFLAGS"] "CFLAGS").
    + compute_done.
    + reflexivity.
  - apply (proj1 (proj2 (proj2 (proj2 (proj2 C4_big_obj_removed))))
             {[ "CFLAGS" := "-pipe -Wa,-mbig-obj -O2 $(DEFINES) ";
                "DEFINES" := "-DQT_CORE_LIB" ]} ["CFLAGS"; "DEFINES"]).
    + compute_done.
    + reflexivity.
    + reflexivity.
  - apply (proj1 (proj2 (proj2 (proj2 (proj2 (proj2 C4_big_obj_removed)))))
             {[ "CFLAGS" := "-O2 $(X) -Wall"; "X" := "-Wa,-mbig-obj" ]}
             ["X"; "CFLAGS"]).
    + compute_done.
    + reflexivity.
    + reflexivity.
Defined.



(** C5. For every table RenderFlags appends seven directives in the
    fixed order CFLAGS, CXXFLAGS, CXXFLAGS from INCPATH, LDFLAGS from
    LFLAGS, LDFLAGS from LIBS and the two fixed warning lines; a key that
    is missing reads as the empty string, so the empty table gives the
    seven directives with empty values; and when the five values hold no
    newline the text has exactly these seven lines. *)
Theorem C5_render_seven_directives (m : gmap string string) :
  length (directives m) = 7
  ∧ RenderFlags m
    = "#cgo CFLAGS: " +:+ mapIndex m "CFLAGS" +:+ nl
      +:+ "#cgo CXXFLAGS: " +:+ mapIndex m "CXXFLAGS" +:+ nl
      +:+ "#cgo CXXFLAGS: " +:+ mapIndex m "INCPATH" +:+ nl
      +:+ "#cgo LDFLAGS: " +:+ mapIndex m "LFLAGS" +:+ nl
      +:+ "#cgo LDFLAGS: " +:+ mapIndex m "LIBS" +:+ nl
      +:+ "#cgo CFLAGS: -Wno-unused-parameter -Wno-unused-variable -Wno-return-type"
      +:+ nl
      +:+ "#cgo CXXFLAGS: -Wno-unused-parameter -Wno-unused-variable -Wno-return-type"
  ∧ (∀ key, m !! key = None → mapIndex m key = "")
  ∧ Str.lines (RenderFlags ∅)
    = [ "#cgo CFLAGS: "; "#cgo CXXFLAGS: "; "#cgo CXXFLAGS: ";
        "#cgo LDFLAGS: "; "#cgo LDFLAGS: ";
        "#cgo CFLAGS: -Wno-unused-parameter -Wno-unused-variable -Wno-return-type";
        "#cgo CXXFLAGS: -Wno-unused-parameter -Wno-unused-variable -Wno-return-type" ]
  ∧ ((∀ key, Str.has (Str.eqc "010") (mapIndex m key) = false) →
     Str.lines (RenderFlags m)
     = [ "#cgo CFLAGS: " +:+ mapIndex m "CFLAGS";
         "#cgo CXXFLAGS: " +:+ mapIndex m "CXXFLAGS";
         "#cgo CXXFLAGS: " +:+ mapIndex m "INCPATH";
         "#cgo LDFLAGS: " +:+ mapIndex m "LFLAGS";
         "#cgo LDFLAGS: " +:+ mapIndex m "LIBS";
         "#cgo CFLAGS: -Wno-unused-parameter -Wno-unused-variable -Wno-return-type";
         "#cgo CXXFLAGS: -Wno-unused-parameter -Wno-unused-variable -Wno-return-type" ]).
Proof.
  assert (RenderFlags m
    = "#cgo CFLAGS: " +:+ mapIndex m "CFLAGS" +:+ nl
      +:+ "#cgo CXXFLAGS: " +:+ mapIndex m "CXXFLAGS" +:+ nl
      +:+ "#cgo CXXFLAGS: " +:+ mapIndex m "INCPATH" +:+ nl
      +:+ "#cgo LDFLAGS: " +:+ mapIndex m "LFLAGS" +:+ nl
      +:+ "#cgo LDFLAGS: " +:+ mapIndex m "LIBS" +:+ nl
      +:+ "#cgo CFLAGS: -Wno-unused-parameter -Wno-unused-variable -Wno-return-type"
      +:+ nl
      +:+ "#cgo CXXFLAGS: -Wno-unused-parameter -Wno-unused-variable -Wno-return-type")
    as Htext.
  { unfold RenderFlags, directives. cbn [foldl].
    rewrite append_nil_l, !append_assoc. reflexivity. }
  split; [done |]. split; [exact Htext |]. split.
  { intros key Hkey. unfold mapIndex. by rewrite Hkey. }
  split; [vm_compute; reflexivity |].
  intros Hnl. rewrite Htext.
  assert (∀ p v t,
            Str.has (Str.eqc "010") p = false →
            Str.has (Str.eqc "010") v = false →
            Str.lines (p +:+ v +:+ nl +:+ t) = (p +:+ v) :: Str.lines t) as Hline.
  { intros p v t Hp Hv. rewrite <-(append_assoc p v).
    apply lines_append. by rewrite has_append, Hp, Hv. }
  rewrite !Hline by (done || apply Hnl).
  rewrite lines_append by reflexivity. rewrite lines_one by reflexivity.
  reflexivity.
Qed.

Lemma C5_render_seven_directives_witness :
  Str.lines (RenderFlags {[ "CFLAGS" := "-O2" ]})
  = [ "#cgo CFLAGS: -O2"; "#cgo CXXFLAGS: "; "#cgo CXXFLAGS: ";
      "#cgo LDFLAGS: "; "#cgo LDFLAGS: ";
      "#cgo CFLAGS: -Wno-unused-parameter -Wno-unused-variable -Wno-return-type";
      "#cgo CXXFLAGS: -Wno-unused-parameter -Wno-unused-variable -Wno-return-type" ]
  ∧ mapIndex (∅ : gmap string string) "LIBS" = "".
Proof.
  split.
  - assert (∀ key, Str.has (Str.eqc "010")
                     (mapIndex {[ "CFLAGS" := "-O2" ]} key) = false) as Hnl.
    { intros key. unfold mapIndex.
      destruct (decide (key = "CFLAGS")) as [-> | Hne]; [reflexivity |].
      by rewrite lookup_singleton_ne. }
    pose proof (proj2 (proj2 (proj2 (proj2
                  (C5_render_seven_directives {[ "CFLAGS" := "-O2" ]})))) Hnl)
      as Hlines.
    vm_compute in Hlines. vm_compute. exact Hlines.
  - apply (proj1 (proj2 (proj2 (C5_render_seven_directives ∅)))). reflexivity.
Defined.

(** * Further properties of the generator *)

(** X1. Every placeholder that the inner loop finds in a flag value is
    a piece of that value of the form [$(K)] with [K] not empty and free
    of white space, and [ReplaceAllString(variable, "$1")] gives back
    exactly [K]: the text handed to [strings.Replace] as [old] is never
    empty. *)
Theorem X1_placeholder_shape (flagValue variable : string) :
  variable ∈ FindAllString rxCompilerVar flagValue →
  ∃ K l r,
    variable = placeholder K
    ∧ K ≠ "" ∧ Str.all nonspace K = true
    ∧ flagValue = l +:+ variable +:+ r
    ∧ ReplaceAllString_1 rxCompilerVar variable = K
    ∧ variable ≠ "".
Proof.
  unfold FindAllString.
  intros (K & l & r & -> & HK & HKns & ->)%find_all_rxCompilerVar_sound.
  exists K, l, r. split; [done |]. split; [done |]. split; [done |].
  split; [done |]. split; [by apply ReplaceAllString_1_placeholder | done].
Qed.

Lemma X1_placeholder_shape_witness :
  ∃ K l r,
    "$(QTDIR)" = placeholder K
    ∧ K ≠ "" ∧ Str.all nonspace K = true
    ∧ "-I$(QTDIR)/include" = l +:+ "$(QTDIR)" +:+ r
    ∧ ReplaceAllString_1 rxCompilerVar "$(QTDIR)" = K
    ∧ "$(QTDIR)" ≠ "".
Proof.
  apply (X1_placeholder_shape "-I$(QTDIR)/include" "$(QTDIR)").
  vm_compute. left.
Defined.

(** X2. A placeholder runs up to the last closing parenthesis of the
    stretch of text without white space that [$(] opens: in a value made
    of text without a dollar sign, [$(K)], text without white space and
    without a closing parenthesis, and a rest that is empty or starts with
    white space, the first placeholder found is [$(K)] for the whole of
    [K], whatever parentheses and dollar signs [K] holds, and the search
    goes on behind it. *)
Theorem X2_placeholder_greedy (l K t rest : string) :
  Str.has (Str.eqc "$") l = false →
  K ≠ "" → Str.all nonspace K = true →
  Str.all nonspace t = true → Str.has (Str.eqc ")") t = false →
  Str.starts nonspace rest = false →
  FindAllString rxCompilerVar (l +:+ placeholder K +:+ t +:+ rest)
  = placeholder K :: FindAllString rxCompilerVar (t +:+ rest).
Proof.
  intros Hl HK HKns Ht Hclose Hrest. unfold FindAllString.
  rewrite find_all_no_dollar by done.
  pose proof (match_at_rxCompilerVar 0 K t rest HK HKns Ht Hclose Hrest) as Hm.
  revert Hm. unfold placeholder. str_norm. intros Hm.
  rewrite (find_all_match _ _ _ _ _ _ _ Hm). f_equal.
  assert (String.length (String "$" (String "(" (K +:+ ")"))) - 1
          = String.length (String "(" (K +:+ ")"))) as ->
    by (cbn [String.length]; lia).
  assert (String "(" (K +:+ String ")" (t +:+ rest))
          = String "(" (K +:+ ")") +:+ (t +:+ rest)) as -> by (by str_norm).
  rewrite find_all_skip. apply find_all_rxCompilerVar_offset.
Qed.

Lemma X2_placeholder_greedy_witness :
  FindAllString rxCompilerVar ("-I" +:+ placeholder "A)$(B" +:+ "/x" +:+ " -O2")
  = placeholder "A)$(B" :: FindAllString rxCompilerVar ("/x" +:+ " -O2").
Proof.
  apply (X2_placeholder_greedy "-I" "A)$(B" "/x" " -O2"); done.
Defined.

(** X3. Every entry of the parsed table comes from a line of the
    input: the pattern matches that whole line, and the line is the key
    (not empty, no white space), white space, [=], white space and the
    value (not empty, no newline). *)
Theorem X3_parse_provenance (lines : list string) (K V : string) :
  ParseSymbols lines !! K = Some V →
  ∃ text,
    text ∈ lines
    ∧ FindStringSubmatch rxMakefile text = [text; K; V]
    ∧ key_value text K V.
Proof. apply ParseSymbols_provenance. Qed.

Lemma X3_parse_provenance_witness :
  ∃ text,
    text ∈ ["junk"; "A = 1"]
    ∧ FindStringSubmatch rxMakefile text = [text; "A"; "1"]
    ∧ key_value text "A" "1".
Proof.
  apply (X3_parse_provenance ["junk"; "A = 1"] "A" "1"). vm_compute. reflexivity.
Defined.

(** X4. The last line that binds a key wins: when a line is matched
    with key [K] and value [V] and no later line is matched with key [K],
    the table binds [K] to [V], whatever came before. *)
Theorem X4_parse_last_wins (l1 : list string) (text : string)
    (l2 : list string) (K V : string) :
  FindStringSubmatch rxMakefile text = [text; K; V] →
  Forall (λ t, nth 1 (FindStringSubmatch rxMakefile t) "" ≠ K) l2 →
  ParseSymbols (l1 ++ text :: l2) !! K = Some V.
Proof.
  intros Htext. induction l2 as [|t l2 IH] using rev_ind; intros Hl2.
  - rewrite ParseSymbols_snoc, (scanLine_set _ _ _ _ _ Htext).
    apply lookup_insert_eq.
  - rewrite Forall_app, Forall_singleton in Hl2. destruct Hl2 as [Hl2 Ht].
    change (text :: l2 ++ [t]) with ((text :: l2) ++ [t]).
    rewrite app_assoc, ParseSymbols_snoc.
    destruct (FindStringSubmatch_rxMakefile t)
      as [Hnone | (K' & V' & Hsome & _)].
    + rewrite (scanLine_skip _ _ Hnone). by apply IH.
    + rewrite (scanLine_set _ _ _ _ _ Hsome). rewrite Hsome in Ht. simpl in Ht.
      rewrite lookup_insert_ne by done. by apply IH.
Qed.

Lemma X4_parse_last_wins_witness :
  ParseSymbols (["A = 1"; "B = 0"] ++ "A = 2" :: ["B = 3"; "junk"]) !! "A"
  = Some "2".
Proof.
  apply (X4_parse_last_wins ["A = 1"; "B = 0"] "A = 2" ["B = 3"; "junk"]).
  - reflexivity.
  - repeat constructor; vm_compute; discriminate.
Defined.

(** X5. Whatever the lines of the makefile and whatever the order of
    the visit, the text that [createCgoFlags] returns has exactly seven
    lines, each a directive followed by the resolved value: no parsed
    value holds a newline, and substitution, the big-obj patch and the
    trimming bring none in. *)
Theorem X5_flags_seven_lines (order lines : list string) :
  let m := ResolveReferences order (ParseSymbols lines) in
  Str.lines (cgoFlagsOf order lines)
  = [ "#cgo CFLAGS: " +:+ mapIndex m "CFLAGS";
      "#cgo CXXFLAGS: " +:+ mapIndex m "CXXFLAGS";
      "#cgo CXXFLAGS: " +:+ mapIndex m "INCPATH";
      "#cgo LDFLAGS: " +:+ mapIndex m "LFLAGS";
      "#cgo LDFLAGS: " +:+ mapIndex m "LIBS";
      "#cgo CFLAGS: -Wno-unused-parameter -Wno-unused-variable -Wno-return-type";
      "#cgo CXXFLAGS: -Wno-unused-parameter -Wno-unused-variable -Wno-return-type" ].
Proof. apply cgoFlagsOf_lines. Qed.

(** X6. [strings.TrimSpace] returns a piece of its argument that
    neither starts nor ends with a white-space rune, in particular not
    with one of the six white-space bytes, and trimming again changes
    nothing. *)
Theorem X6_TrimSpace_ends (s : string) :
  (∃ l r, s = l +:+ TrimSpace s +:+ r)
  ∧ leading_space (TrimSpace s) = false
  ∧ trailing_space (TrimSpace s) = false
  ∧ Str.starts asciiSpace (TrimSpace s) = false
  ∧ Str.ends asciiSpace (TrimSpace s) = false
  ∧ TrimSpace (TrimSpace s) = TrimSpace s.
Proof.
  destruct (TrimSpace_ends s) as [Hl Ht].
  split; [apply TrimSpace_substring |]. split; [done |]. split; [done |].
  split; [by apply leading_space_ascii |].
  split; [by apply trailing_space_ascii | by apply TrimSpace_fix].
Qed.

(** X7. After the loop every value of the table is trimmed: it is left
    unchanged by [strings.TrimSpace] and has no white space at either
    end, in every order of the visit. *)
Theorem X7_resolved_values_trimmed (m : gmap string string)
    (order : list string) :
  key_order m order →
  map_Forall
    (λ _ v,
       TrimSpace v = v
       ∧ leading_space v = false ∧ trailing_space v = false
       ∧ Str.starts asciiSpace v = false ∧ Str.ends asciiSpace v = false)
    (ResolveReferences order m).
Proof.
  intros Ho key v [u ->]%(ResolveReferences_trimmed m order key v Ho).
  destruct (TrimSpace_ends u) as [Hl Ht].
  split; [by apply TrimSpace_fix |]. split; [done |]. split; [done |].
  split; [by apply leading_space_ascii | by apply trailing_space_ascii].
Qed.

Lemma X7_resolved_values_trimmed_witness :
  map_Forall
    (λ _ v,
       TrimSpace v = v
       ∧ leading_space v = false ∧ trailing_space v = false
       ∧ Str.starts asciiSpace v = false ∧ Str.ends asciiSpace v = false)
    (ResolveReferences ["A"; "B"] {[ "A" := " x $(B) "; "B" := "y  " ]}).
Proof.
  apply (X7_resolved_values_trimmed {[ "A" := " x $(B) "; "B" := "y  " ]}
           ["A"; "B"]).
  compute_done.
Defined.

(** X8. When the package name holds no newline, the file that
    [CreateCgoFile] writes has, for every makefile and every order of the
    visit, the package clause, an empty line, the comment opener, the
    seven directives, the comment closer directly followed by the import
    of "C", and a final newline. *)
Theorem X8_file_content_lines (pkgName : string) (order lines : list string) :
  Str.has (Str.eqc "010") pkgName = false →
  let m := ResolveReferences order (ParseSymbols lines) in
  Str.lines (fileContent pkgName (cgoFlagsOf order lines))
  = [ "package " +:+ pkgName;
      "";
      "/*";
      "#cgo CFLAGS: " +:+ mapIndex m "CFLAGS";
      "#cgo CXXFLAGS: " +:+ mapIndex m "CXXFLAGS";
      "#cgo CXXFLAGS: " +:+ mapIndex m "INCPATH";
      "#cgo LDFLAGS: " +:+ mapIndex m "LFLAGS";
      "#cgo LDFLAGS: " +:+ mapIndex m "LIBS";
      "#cgo CFLAGS: -Wno-unused-parameter -Wno-unused-variable -Wno-return-type";
      "#cgo CXXFLAGS: -Wno-unused-parameter -Wno-unused-variable -Wno-return-type";
      "*/";
      importC;
      "" ].
Proof.
  intros Hpkg m. rewrite (fileContent_lines _ _ Hpkg).
  by rewrite (cgoFlagsOf_lines order lines).
Qed.

Lemma X8_file_content_lines_witness :
  Str.lines (fileContent "main" (cgoFlagsOf ["CFLAGS"] ["CFLAGS = -O2 "]))
  = [ "package main";
      "";
      "/*";
      "#cgo CFLAGS: -O2";
      "#cgo CXXFLAGS: ";
      "#cgo CXXFLAGS: ";
      "#cgo LDFLAGS: ";
      "#cgo LDFLAGS: ";
      "#cgo CFLAGS: -Wno-unused-parameter -Wno-unused-variable -Wno-return-type";
      "#cgo CXXFLAGS: -Wno-unused-parameter -Wno-unused-variable -Wno-return-type";
      "*/";
      importC;
      "" ].
Proof.
  pose proof (X8_file_content_lines "main" ["CFLAGS"] ["CFLAGS = -O2 "] eq_refl)
    as Hlines.
  vm_compute in Hlines. vm_compute. exact Hlines.
Defined.

(** X9. A key whose value only refers to keys that are missing or bound
    to values that resolution leaves as they are gets the same resolved
    value in every order of the visit, whatever the other entries of the
    table are: its own value with the references read from the table as
    parsed. *)
Theorem X9_resolve_local (m : gmap string string) (order : list string)
    (key v : string) :
  key_order m order → m !! key = Some v →
  Forall (λ k, from_option inert True (m !! k)) (references v) →
  ResolveReferences order m !! key = Some (resolveValue m v).
Proof. apply ResolveReferences_local. Qed.

Lemma X9_resolve_local_witness :
  ResolveReferences ["C"; "B"; "A"]
    {[ "A" := "-I$(B) $(Z)"; "B" := "x"; "C" := "$(A) $(C)" ]} !! "A"
  = Some (resolveValue
            {[ "A" := "-I$(B) $(Z)"; "B" := "x"; "C" := "$(A) $(C)" ]}
            "-I$(B) $(Z)").
Proof.
  apply (X9_resolve_local
           {[ "A" := "-I$(B) $(Z)"; "B" := "x"; "C" := "$(A) $(C)" ]}
           ["C"; "B"; "A"] "A" "-I$(B) $(Z)").
  - compute_done.
  - compute_done.
  - change (references "-I$(B) $(Z)") with ["B"; "Z"].
    repeat constructor; vm_compute; done.
Defined.

(** X10. The inner loop replaces in the value as it stands: in
    [$(A) $(B)] the text put in for [$(A)] is itself subject to the
    replacement of [$(B)] that follows, so when [A] is bound to [$(B)]
    both places end up holding the value of [B]. *)
Theorem X10_substitute_later (m : gmap string string) :
  substitute m "$(A) $(B)"
  = Replace (mapIndex m "A" +:+ " $(B)") "$(B)" (mapIndex m "B")
  ∧ (m !! "A" = Some "$(B)" →
     substitute m "$(A) $(B)" = mapIndex m "B" +:+ " " +:+ mapIndex m "B").
Proof.
  assert (substitute m "$(A) $(B)"
          = Replace (mapIndex m "A" +:+ " $(B)") "$(B)" (mapIndex m "B")) as Hsub.
  { unfold substitute.
    change (FindAllString rxCompilerVar "$(A) $(B)") with ["$(A)"; "$(B)"].
    cbn [foldl].
    change (ReplaceAllString_1 rxCompilerVar "$(A)") with "A".
    change (ReplaceAllString_1 rxCompilerVar "$(B)") with "B".
    f_equal. generalize (mapIndex m "A"). intros a.
    unfold Replace. case_decide as Ha; [by subst a |].
    cbn. by rewrite ?append_nil_r. }
  split; [exact Hsub |]. intros HA. rewrite Hsub.
  assert (mapIndex m "A" = "$(B)") as -> by (unfold mapIndex; by rewrite HA).
  change ("$(B)" +:+ " $(B)") with "$(B) $(B)".
  generalize (mapIndex m "B"). intros b.
  unfold Replace. case_decide as Hb; [by subst b |].
  cbn. by rewrite append_nil_r.
Qed.

Lemma X10_substitute_later_witness :
  substitute {[ "A" := "$(B)"; "B" := "-O2" ]} "$(A) $(B)" = "-O2 -O2".
Proof.
  pose proof (proj2 (X10_substitute_later {[ "A" := "$(B)"; "B" := "-O2" ]})
                eq_refl) as Hsub.
  vm_compute in Hsub. vm_compute. exact Hsub.
Defined.

(** X11. In every run of [createCgoFlags] that returns flags, on every
    platform, the file that was opened for parsing is removed afterwards:
    the path given to [os.Open] is given to [os.Remove] later in the run.
    (A run that returns an error removes nothing, also when the makefile
    was opened.) *)
Theorem X11_parsed_file_removed (w : World) (profile : Profile)
    (dstDir flags path : string) :
  (createCgoFlags w profile dstDir).2 = Os.Ok flags →
  Os.Open path ∈ (createCgoFlags w profile dstDir).1 →
  path = qmakeResultPath (OS profile) (makeFilePath (Join w) dstDir)
  ∧ ∃ before after,
      (createCgoFlags w profile dstDir).1 = before ++ Os.Open path :: after
      ∧ (Os.Open path ∉ before)
      ∧ Os.Remove path ∈ after.
Proof.
  intros Hok. rewrite (createCgoFlags_Ok_calls _ _ _ _ Hok). cbv zeta.
  set (pro := proFilePath (Join w) dstDir).
  set (make := makeFilePath (Join w) dstDir).
  set (tail := (if debugDirEmpty w then _ else _) ++ _).
  intros Hopen.
  assert (path = qmakeResultPath (OS profile) make) as ->.
  { unfold removedFiles in Hopen. cbn in Hopen.
    repeat (apply elem_of_cons in Hopen as [[=] | Hopen]); [done |].
    subst tail.
    repeat (apply elem_of_app in Hopen as [Hopen | Hopen]).
    - destruct (debugDirEmpty w);
        [apply list_elem_of_singleton in Hopen | apply elem_of_nil in Hopen];
        done.
    - destruct (releaseDirEmpty w);
        [apply list_elem_of_singleton in Hopen | apply elem_of_nil in Hopen];
        done.
    - repeat (apply elem_of_cons in Hopen as [[=] | Hopen]).
      by apply elem_of_nil in Hopen. }
  split; [done |].
  eexists [_; _; _; _], _. split; [reflexivity |]. split.
  { intros Hin. repeat (apply elem_of_cons in Hin as [[=] | Hin]).
    by apply elem_of_nil in Hin. }
  apply elem_of_app. left. apply list_elem_of_fmap.
  exists (qmakeResultPath (OS profile) make). split; [done |].
  unfold qmakeResultPath, removedFiles. fold make.
  case_decide; [do 3 right; left | right; left].
Qed.

Lemma X11_parsed_file_removed_witness :
  "dst/qamel.makefile"
  = qmakeResultPath (OS linux) (makeFilePath (Join fineWorld) "dst")
  ∧ ∃ before after,
      (createCgoFlags fineWorld linux "dst").1
      = before ++ Os.Open "dst/qamel.makefile" :: after
      ∧ (Os.Open "dst/qamel.makefile" ∉ before)
      ∧ Os.Remove "dst/qamel.makefile" ∈ after.
Proof.
  apply (X11_parsed_file_removed fineWorld linux "dst"
           (cgoFlagsOf ["LIBS"; "CFLAGS"] ["CFLAGS = -O2"; "LIBS = -lQt5Core"])).
  - reflexivity.
  - vm_compute. do 4 right. left.
Defined.

(** X12. A value that holds no placeholder and no big-obj flag between
    two spaces is only trimmed, in every order of the visit. The flag is
    looked for with a space on either side, so a value that starts with it
    keeps it. *)
Theorem X12_plain_value_trimmed (m : gmap string string) (order : list string)
    (key v : string) :
  key_order m order → m !! key = Some v →
  FindAllString rxCompilerVar v = [] →
  no_occurrence bigObj v "" = true →
  ResolveReferences order m !! key = Some (TrimSpace v).
Proof.
  intros Ho Hkey Hnone Hv.
  rewrite (ResolveReferences_local m order key v Ho Hkey)
    by (unfold references; rewrite Hnone; constructor).
  unfold resolveValue, substitute. rewrite Hnone. cbn [foldl].
  by rewrite patch_none.
Qed.

Lemma X12_plain_value_trimmed_witness :
  ResolveReferences ["LIBS"; "CFLAGS"]
    {[ "CFLAGS" := "-Wa,-mbig-obj -O2 "; "LIBS" := "$(CFLAGS)" ]} !! "CFLAGS"
  = Some (TrimSpace "-Wa,-mbig-obj -O2 ").
Proof.
  apply (X12_plain_value_trimmed
           {[ "CFLAGS" := "-Wa,-mbig-obj -O2 "; "LIBS" := "$(CFLAGS)" ]}
           ["LIBS"; "CFLAGS"] "CFLAGS" "-Wa,-mbig-obj -O2 ").
  - compute_done.
  - compute_done.
  - reflexivity.
  - reflexivity.
Defined.

(** X13. [createCgoFlags] returns flags exactly when its five fallible
    calls succeed: creating and writing the project file, running qmake,
    opening the makefile and scanning it. The flags are then the rendering
    of the table parsed from the scanned lines and resolved in the order
    of the visit. *)
Theorem X13_flags_returned (w : World) (profile : Profile)
    (dstDir flags : string) :
  (createCgoFlags w profile dstDir).2 = Os.Ok flags ↔
  createPro w = None ∧ writePro w = None ∧ (qmakeOutput w).2 = None
  ∧ openMake w = None ∧ (scanned w).2 = None
  ∧ flags = cgoFlagsOf (rangeOrder w) (scanned w).1.
Proof. apply createCgoFlags_Ok. Qed.

Lemma X13_flags_returned_witness :
  (createCgoFlags fineWorld linux "dst").2
  = Os.Ok (cgoFlagsOf ["LIBS"; "CFLAGS"] ["CFLAGS = -O2"; "LIBS = -lQt5Core"]).
Proof.
  apply (proj2 (X13_flags_returned fineWorld linux "dst" _)).
  repeat split; reflexivity.
Defined.

(** X14. The generated files are removed on success only: when
    [createCgoFlags] returns an error it has made no [os.Remove] and no
    [os.RemoveAll] call, so what it created so far stays in the
    directory; when it returns flags it has asked for the removal of each
    of the five files. *)
Theorem X14_cleanup_on_success_only (w : World) (profile : Profile)
    (dstDir : string) :
  (∀ err,
     (createCgoFlags w profile dstDir).2 = Os.Err err →
     Forall (λ c, removal c = false) (createCgoFlags w profile dstDir).1)
  ∧ (∀ flags path,
       (createCgoFlags w profile dstDir).2 = Os.Ok flags →
       path ∈ removedFiles (Join w) dstDir →
       Os.Remove path ∈ (createCgoFlags w profile dstDir).1).
Proof.
  split; [apply createCgoFlags_Err_no_removal |].
  intros flags path Hok Hpath. rewrite (createCgoFlags_Ok_calls _ _ _ _ Hok).
  apply elem_of_app. right. apply elem_of_app. left.
  apply list_elem_of_fmap. by exists path.
Qed.

Lemma X14_cleanup_on_success_only_witness :
  Forall (λ c, removal c = false) (createCgoFlags qmakeFails linux "dst").1
  ∧ Os.Remove "dst/qamel.pro" ∈ (createCgoFlags fineWorld linux "dst").1.
Proof.
  split.
  - apply (proj1 (X14_cleanup_on_success_only qmakeFails linux "dst")
             ("exit status 3" +:+ nl
                +:+ "Project ERROR: Unknown module(s) in QT: svg")).
    reflexivity.
  - apply (proj2 (X14_cleanup_on_success_only fineWorld linux "dst")
             (cgoFlagsOf ["LIBS"; "CFLAGS"] ["CFLAGS = -O2"; "LIBS = -lQt5Core"])).
    + reflexivity.
    + vm_compute. left.
Defined.

(** X15. Once the project file is created, closing it is the last call
    of [createCgoFlags] on every path, and in a run that succeeds the
    calls are: create, write and sync the project file, run qmake with
    the makefile, the spec and the project file as arguments, in the
    target directory and with [PATH] as the last entry of the
    environment, open the makefile, remove the five files and the empty
    debug and release directories, and only then close the makefile and
    the project file. *)
Theorem X15_calls_of_success (w : World) (profile : Profile) (dstDir : string) :
  (createPro w = None →
   last (createCgoFlags w profile dstDir).1
   = Some (Os.Close (proFilePath (Join w) dstDir)))
  ∧ (∀ flags,
       (createCgoFlags w profile dstDir).2 = Os.Ok flags →
       let pro := proFilePath (Join w) dstDir in
       let make := makeFilePath (Join w) dstDir in
       (createCgoFlags w profile dstDir).1
       = [ Os.Create pro;
           Os.WriteString pro (proContent profile);
           Os.Sync pro;
           Os.Command (Qmake profile)
             ["-o"; make; "-spec"; qmakeSpec profile; pro] dstDir
             (Environ w ++ ["PATH=" +:+ envPath w profile]);
           Os.Open (qmakeResultPath (OS profile) make) ]
           ++ (Os.Remove <$> removedFiles (Join w) dstDir)
           ++ (if debugDirEmpty w then [Os.RemoveAll (Join w dstDir "debug")]
               else [])
           ++ (if releaseDirEmpty w
               then [Os.RemoveAll (Join w dstDir "release")] else [])
           ++ [ Os.Close (qmakeResultPath (OS profile) make); Os.Close pro ]).
Proof.
  split; [apply createCgoFlags_closes | apply createCgoFlags_Ok_calls].
Qed.

Lemma X15_calls_of_success_witness :
  last (createCgoFlags qmakeFails linux "dst").1
  = Some (Os.Close "dst/qamel.pro")
  ∧ (createCgoFlags fineWorld linux "dst").1
    = [ Os.Create "dst/qamel.pro";
        Os.WriteString "dst/qamel.pro"
          ("QT += qml quick widgets svg" +:+ nl +:+ "CONFIG += release" +:+ nl);
        Os.Sync "dst/qamel.pro";
        Os.Command "/usr/bin/qmake"
          ["-o"; "dst/qamel.makefile"; "-spec"; "linux-g++"; "dst/qamel.pro"]
          "dst" ["HOME=/root"; "PATH=/usr/bin:/bin"];
        Os.Open "dst/qamel.makefile";
        Os.Remove "dst/qamel.pro";
        Os.Remove "dst/qamel.makefile";
        Os.Remove "dst/qamel.makefile.Debug";
        Os.Remove "dst/qamel.makefile.Release";
        Os.Remove "dst/.qmake.stash";
        Os.RemoveAll "dst/debug";
        Os.Close "dst/qamel.makefile";
        Os.Close "dst/qamel.pro" ].
Proof.
  split.
  - apply (proj1 (X15_calls_of_success qmakeFails linux "dst")). reflexivity.
  - pose proof (proj2 (X15_calls_of_success fineWorld linux "dst")
                  (cgoFlagsOf ["LIBS"; "CFLAGS"]
                     ["CFLAGS = -O2"; "LIBS = -lQt5Core"]) eq_refl) as Hcalls.
    vm_compute in Hcalls. vm_compute. exact Hcalls.
Defined.

(** X16. When [CreateCgoFile] returns no error, the package name was
    given or found, [createCgoFlags] returned the flags of the scanned
    makefile, and the last four calls created the file
    qamel-cgo-<package>.go in the target directory, wrote the package
    clause, the flags in a comment and the import of "C" to it, synced it
    and closed it. *)
Theorem X16_file_written (w : World) (profile : Profile)
    (dstDir pkgName : string) :
  (CreateCgoFile w profile dstDir pkgName).2 = Os.Ok () →
  ∃ pkg,
    packageOf w pkgName = Os.Ok pkg
    ∧ (createCgoFlags w profile dstDir).2
      = Os.Ok (cgoFlagsOf (rangeOrder w) (scanned w).1)
    ∧ ∃ pre,
        (CreateCgoFile w profile dstDir pkgName).1
        = pre
            ++ [ Os.Create (Join w dstDir ("qamel-cgo-" +:+ pkg +:+ ".go"));
                 Os.WriteString (Join w dstDir ("qamel-cgo-" +:+ pkg +:+ ".go"))
                   (fileContent pkg (cgoFlagsOf (rangeOrder w) (scanned w).1));
                 Os.Sync (Join w dstDir ("qamel-cgo-" +:+ pkg +:+ ".go"));
                 Os.Close (Join w dstDir ("qamel-cgo-" +:+ pkg +:+ ".go")) ].
Proof.
  unfold CreateCgoFile, packageOf.
  destruct (createCgoFlags w profile dstDir) as [calls [flags | err]] eqn:Hflags.
  - assert ((createCgoFlags w profile dstDir).2 = Os.Ok flags) as Hok
      by (by rewrite Hflags).
    apply createCgoFlags_Ok in Hok as (_ & _ & _ & _ & _ & ->).
    destruct (mkdirAll w), (decide (pkgName = "")), (packageName w),
      (createDst w), (writeDst w), (syncDst w); cbn; intros Hok;
      try discriminate Hok; eexists; (split; [reflexivity |]);
      (split; [reflexivity |]); eexists (_ :: _);
      rewrite <-app_comm_cons; f_equal; rewrite <-!app_assoc; reflexivity.
  - destruct (mkdirAll w), (decide (pkgName = "")), (packageName w); cbn;
      intros Hok; discriminate Hok.
Qed.

Lemma X16_file_written_witness :
  ∃ pkg,
    packageOf fineWorld "" = Os.Ok pkg
    ∧ (createCgoFlags fineWorld linux "dst").2
      = Os.Ok (cgoFlagsOf (rangeOrder fineWorld) (scanned fineWorld).1)
    ∧ ∃ pre,
        (CreateCgoFile fineWorld linux "dst" "").1
        = pre
            ++ [ Os.Create (Join fineWorld "dst" ("qamel-cgo-" +:+ pkg +:+ ".go"));
                 Os.WriteString
                   (Join fineWorld "dst" ("qamel-cgo-" +:+ pkg +:+ ".go"))
                   (fileContent pkg
                      (cgoFlagsOf (rangeOrder fineWorld) (scanned fineWorld).1));
                 Os.Sync (Join fineWorld "dst" ("qamel-cgo-" +:+ pkg +:+ ".go"));
                 Os.Close (Join fineWorld "dst" ("qamel-cgo-" +:+ pkg +:+ ".go")) ].
Proof. apply (X16_file_written fineWorld linux "dst" ""). reflexivity. Defined.

(** X17. When the flags cannot be computed, [CreateCgoFile] stops
    there: after [os.MkdirAll] it has made the calls of
    [createCgoFlags] and no other, the destination file is not created,
    and the error returned is the error of [createCgoFlags] behind
    "failed to create cgo flags: ". *)
Theorem X17_no_file_without_flags (w : World) (profile : Profile)
    (dstDir pkgName pkg : string) (err : Os.error) :
  mkdirAll w = None → packageOf w pkgName = Os.Ok pkg →
  (createCgoFlags w profile dstDir).2 = Os.Err err →
  CreateCgoFile w profile dstDir pkgName
  = (Os.MkdirAll dstDir :: (createCgoFlags w profile dstDir).1,
     Os.Err ("failed to create cgo flags: " +:+ err)).
Proof.
  unfold CreateCgoFile, packageOf. intros -> Hpkg Herr.
  destruct (createCgoFlags w profile dstDir) as [calls r]. simpl in Herr.
  subst r. case_decide; [rewrite Hpkg |]; cbn; by rewrite ?app_nil_r.
Qed.

Lemma X17_no_file_without_flags_witness :
  CreateCgoFile qmakeFails linux "dst" "main"
  = (Os.MkdirAll "dst" :: (createCgoFlags qmakeFails linux "dst").1,
     Os.Err ("failed to create cgo flags: "
               +:+ ("exit status 3" +:+ nl
                      +:+ "Project ERROR: Unknown module(s) in QT: svg"))).
Proof.
  apply (X17_no_file_without_flags qmakeFails linux "dst" "main" "main");
    reflexivity.
Defined.

(** X18. The directory of g++ is compared with the directory of gcc
    whether or not gcc exists: when the two compilers are in the same
    directory, that directory is put in front of [PATH] once if gcc
    exists, and not at all if gcc does not exist, also when g++ does. In
    every case the inherited [PATH] stays at the end. *)
Theorem X18_env_path_same_dir (w : World) (profile : Profile) :
  (∃ front, envPath w profile = front +:+ PATH w)
  ∧ (Dir w (Gxx profile) = Dir w (Gcc profile) →
     envPath w profile
     = if gccExists w
       then Dir w (Gcc profile) +:+ pathSeparator profile +:+ PATH w
       else PATH w).
Proof.
  unfold envPath. split.
  - set (sep := pathSeparator profile).
    destruct (gccExists w), (gxxExists w && _).
    + exists (Dir w (Gxx profile) +:+ sep +:+ Dir w (Gcc profile) +:+ sep).
      by rewrite !append_assoc.
    + exists (Dir w (Gcc profile) +:+ sep). by rewrite !append_assoc.
    + exists (Dir w (Gxx profile) +:+ sep). by rewrite !append_assoc.
    + by exists "".
  - intros ->. rewrite bool_decide_eq_false_2 by (by intros ?).
    by rewrite andb_false_r.
Qed.

Lemma X18_env_path_same_dir_witness :
  envPath qmakeFails
    {| OS := "windows"; Gcc := "C:/mingw/bin/gcc.exe";
       Gxx := "C:/mingw/bin/g++.exe"; Qmake := "qmake.exe" |}
  = "/bin".
Proof.
  apply (proj2 (X18_env_path_same_dir qmakeFails
                  {| OS := "windows"; Gcc := "C:/mingw/bin/gcc.exe";
                     Gxx := "C:/mingw/bin/g++.exe"; Qmake := "qmake.exe" |})).
  reflexivity.
Defined.
